(** * Verification of the enumeration table of tranglecong/common

    Shallow embedding of [include/common/enum/detail.hpp]: the [Enum<T>]
    entry, the four search policies, the unknown policy and the
    [EnumHolder] that binds them to a caller-owned array.

    Conventions of the embedding.
    - [std::string_view] is a [string]; [char] is an [ascii].
    - [size_t] is a 64-bit unsigned integer: a [Z] reduced modulo [2^64]
      after every arithmetic operation.
    - [std::array<Enum<T>, N>] is a list of [N] entries.  [operator[]] is
      unchecked in C++; here an index outside the array ends the run with
      the fault [OutOfBounds].
    - the holder keeps a reference to the array, so the array lives in a
      [Memory] and the holder stores its address.
    - [std::tolower] reads the [LC_CTYPE] category of the current locale
      of the process; the locale is an explicit [Locale] argument of the
      case-insensitive strategy. *)

From Stdlib Require Import ZArith Lia Ascii String.
From stdpp Require Import base option list strings gmap.

Local Open Scope Z_scope.

(** ** Faults and outcomes *)

Inductive fault : Type :=
| OutOfBounds (i : Z)      (* a read past the end of an array or string *)
| DanglingReference        (* the holder outlived its array *)
| OutOfFuel.               (* the loop bound of the embedding was reached *)

Inductive Outcome (A : Type) : Type :=
| Ok (a : A)
| Fault (f : fault).

Arguments Ok {A} a.
Arguments Fault {A} f.

(** ** The value type [T] of the template *)

Class ValueType (T : Type) : Type := {
  vdefault : T;                 (* T{} *)
  veq : T -> T -> bool;         (* operator== *)
  vlt : T -> T -> bool          (* operator<  *)
}.

(** [==] decides equality and [<] is a strict total order. *)
Class LawfulValue (T : Type) `{ValueType T} : Prop := {
  veq_spec : forall a b : T, veq a b = true <-> a = b;
  vlt_irrefl : forall a : T, vlt a a = false;
  vlt_trans : forall a b c : T, vlt a b = true -> vlt b c = true -> vlt a c = true;
  vlt_connex : forall a b : T, vlt a b = false -> vlt b a = false -> a = b
}.

#[export] Instance Z_ValueType : ValueType Z :=
  {| vdefault := 0; veq := Z.eqb; vlt := Z.ltb |}.


(** ** [size_t] arithmetic *)

Definition SIZE_MAX : Z := 2 ^ 64 - 1.
Definition wrap (x : Z) : Z := x mod 2 ^ 64.
Definition size_add (a b : Z) : Z := wrap (a + b).
Definition size_sub (a b : Z) : Z := wrap (a - b).
Definition size_div (a b : Z) : Z := a / b.

(** [left + (right - left) / 2] *)
Definition midpoint (left right : Z) : Z :=
  size_add left (size_div (size_sub right left) 2).

(** ** The locale behind [std::tolower] *)

(** [std::tolower] maps a character by the [LC_CTYPE] category of the
    current locale of the process.  A locale is given by that mapping on
    the values of [unsigned char]. *)
Record Locale : Type := { lc_tolower : Z -> Z }.

(** The "C" locale, in effect until the program calls [setlocale]: only
    the letters [A] to [Z] have a lower case. *)
Definition C_locale : Locale :=
  {| lc_tolower := fun c => if (65 <=? c) && (c <=? 90) then c + 32 else c |}.

(** An ISO 8859-1 locale: the accented capitals 192 to 222, the
    multiplication sign 215 apart, have a lower case as well. *)
Definition Latin1_locale : Locale :=
  {| lc_tolower := fun c =>
       if ((65 <=? c) && (c <=? 90))
          || ((192 <=? c) && (c <=? 222) && negb (c =? 215))
       then c + 32 else c |}.

(** ** [Enum<T>] *)

Record Enum (T : Type) : Type := mkEnum { value : T; name : string }.

Arguments mkEnum {T} value name.
Arguments value {T} e.
Arguments name {T} e.

Section EnumOps.
Context {T : Type} `{ValueType T}.

(** [Enum::operator==] *)
Definition Enum_eq (a b : Enum T) : bool :=
  if veq (value a) (value b) && String.eqb (name a) (name b)
  then true else false.

(** [default_unknown_enum<T>()] *)
Definition default_unknown_enum : Enum T := mkEnum vdefault EmptyString.

(** [entries[i]] for a [size_t] index. *)
Definition at_index (entries : list (Enum T)) (i : Z) : Outcome (Enum T) :=
  if (0 <=? i) && (i <? Z.of_nat (length entries))
  then match entries !! Z.to_nat i with
       | Some e => Ok e
       | None => Fault (OutOfBounds i)
       end
  else Fault (OutOfBounds i).
End EnumOps.

(** ** Search policies *)

Module policy.

Module LinearSearchPolicy.
Section Search.
Context {T : Type} `{ValueType T}.

(** The range-for loop with its [break]. *)
Fixpoint scan (value0 : T) (entries : list (Enum T)) : Enum T :=
  match entries with
  | [] => default_unknown_enum
  | entry :: rest =>
      if veq (value entry) value0 then entry else scan value0 rest
  end.

Definition search (N : nat) (value0 : T) (entries : list (Enum T))
  : Outcome (Enum T) :=
  Ok (scan value0 entries).
End Search.
End LinearSearchPolicy.

Module SortedSearchPolicy.
Section Search.
Context {T : Type} `{ValueType T}.

(** The [while (left <= right)] loop; one unit of fuel per test of the
    loop condition. *)
Fixpoint loop (fuel : nat) (value0 : T) (entries : list (Enum T))
    (left right : Z) : Outcome (Enum T) :=
  match fuel with
  | O => Fault OutOfFuel
  | S fuel' =>
      if left <=? right then
        let mid := midpoint left right in
        match at_index entries mid with
        | Fault f => Fault f
        | Ok e =>
            if veq (value e) value0 then Ok e
            else if vlt (value e) value0
                 then loop fuel' value0 entries (size_add mid 1) right
                 else loop fuel' value0 entries left (size_sub mid 1)
        end
      else Ok default_unknown_enum
  end.

Definition search (N : nat) (value0 : T) (entries : list (Enum T))
  : Outcome (Enum T) :=
  loop (N + 2) value0 entries 0 (size_sub (Z.of_nat N) 1).
End Search.
End SortedSearchPolicy.

Module CaseSensitiveStringSearchPolicy.
Section Search.
Context {T : Type} `{ValueType T}.

Fixpoint scan (name0 : string) (entries : list (Enum T)) : Enum T :=
  match entries with
  | [] => default_unknown_enum
  | entry :: rest =>
      if String.eqb (name entry) name0 then entry else scan name0 rest
  end.

Definition search (N : nat) (name0 : string) (entries : list (Enum T))
  : Outcome (Enum T) :=
  Ok (scan name0 entries).
End Search.
End CaseSensitiveStringSearchPolicy.

Module CaseInsensitiveStringSearchPolicy.

(** [static_cast<unsigned char>(c)] widened to [int]. *)
Definition to_uchar (c : ascii) : Z := Z.of_N (N_of_ascii c).

(** [std::tolower] in the current locale [L]. *)
Definition tolower (L : Locale) (c : Z) : Z := lc_tolower L c.

Definition caseInsensitiveEqual (L : Locale) (a b : ascii) : bool :=
  tolower L (to_uchar a) =? tolower L (to_uchar b).

(** [std::equal(first1, last1, first2, pred)]: walks the first range and
    reads the second one at the same positions, without a bound on the
    second range. *)
Fixpoint std_equal (pred : ascii -> ascii -> bool) (pos : Z)
    (s1 s2 : string) : Outcome bool :=
  match s1 with
  | EmptyString => Ok true
  | String a r1 =>
      match s2 with
      | EmptyString => Fault (OutOfBounds pos)
      | String b r2 =>
          if pred a b then std_equal pred (pos + 1) r1 r2 else Ok false
      end
  end.

(** The condition of the [if] in the loop body, with the short-circuit
    of [&&]. *)
Definition names_match (L : Locale) (name0 entry_name : string) : Outcome bool :=
  if Nat.eqb (String.length name0) (String.length entry_name)
  then std_equal (caseInsensitiveEqual L) 0 entry_name name0
  else Ok false.

Section Search.
Context {T : Type} `{ValueType T}.

Fixpoint scan (L : Locale) (name0 : string) (entries : list (Enum T))
  : Outcome (Enum T) :=
  match entries with
  | [] => Ok default_unknown_enum
  | entry :: rest =>
      match names_match L name0 (name entry) with
      | Fault f => Fault f
      | Ok true => Ok entry
      | Ok false => scan L name0 rest
      end
  end.

Definition search (L : Locale) (N : nat) (name0 : string)
    (entries : list (Enum T)) : Outcome (Enum T) :=
  scan L name0 entries.
End Search.
End CaseInsensitiveStringSearchPolicy.

Module UnknownPolicy.
Section Handle.
Context {T : Type} `{ValueType T}.

Definition handle_name (N : nat) (name0 : string)
    (entries : list (Enum T)) : Outcome (Enum T) :=
  Ok default_unknown_enum.

Definition handle_value (N : nat) (value0 : T)
    (entries : list (Enum T)) : Outcome (Enum T) :=
  Ok default_unknown_enum.
End Handle.
End UnknownPolicy.

End policy.

(** ** The three policy interfaces of the [EnumHolder] template *)

Record EnumSearchPolicy (T : Type) : Type :=
  { search_by_value : nat -> T -> list (Enum T) -> Outcome (Enum T) }.

Record StringSearchPolicy (T : Type) : Type :=
  { search_by_name : nat -> string -> list (Enum T) -> Outcome (Enum T) }.

Record UnknownHandler (T : Type) : Type :=
  { handle_value : nat -> T -> list (Enum T) -> Outcome (Enum T);
    handle_name : nat -> string -> list (Enum T) -> Outcome (Enum T) }.

Arguments search_by_value {T} _ _ _ _.
Arguments search_by_name {T} _ _ _ _.
Arguments handle_value {T} _ _ _ _.
Arguments handle_name {T} _ _ _ _.

Section ProvidedPolicies.
Context {T : Type} `{ValueType T}.

Definition Linear : EnumSearchPolicy T :=
  {| search_by_value := policy.LinearSearchPolicy.search |}.
Definition Sorted : EnumSearchPolicy T :=
  {| search_by_value := policy.SortedSearchPolicy.search |}.
Definition CaseSensitive : StringSearchPolicy T :=
  {| search_by_name := policy.CaseSensitiveStringSearchPolicy.search |}.
(** The case-insensitive strategy as it runs under the locale [L]. *)
Definition CaseInsensitive (L : Locale) : StringSearchPolicy T :=
  {| search_by_name := policy.CaseInsensitiveStringSearchPolicy.search L |}.
Definition Unknown : UnknownHandler T :=
  {| handle_value := policy.UnknownPolicy.handle_value;
     handle_name := policy.UnknownPolicy.handle_name |}.
End ProvidedPolicies.

(** ** Memory and the computations that run in it *)

Definition address : Type := nat.

(** The arrays that are alive, by address. *)
Abbreviation Memory T := (gmap address (list (Enum T))).

Definition M (T A : Type) : Type := Memory T -> Outcome A * Memory T.

Section Monad.
Context {T : Type}.

Definition ret {A} (a : A) : M T A := fun m => (Ok a, m).

Definition bind {A B} (c : M T A) (k : A -> M T B) : M T B :=
  fun m => match c m with
           | (Ok a, m') => k a m'
           | (Fault f, m') => (Fault f, m')
           end.

Definition lift {A} (o : Outcome A) : M T A := fun m => (o, m).

(** Reading through a reference to an array. *)
Definition deref (r : address) : M T (list (Enum T)) :=
  fun m => match m !! r with
           | Some entries => (Ok entries, m)
           | None => (Fault DanglingReference, m)
           end.
End Monad.

Notation "x <- c ;; k" := (bind c (fun x => k))
  (at level 100, c at next level, right associativity).

(** ** [EnumHolder] *)

Record EnumHolder {T : Type} (N : nat) (ESP : EnumSearchPolicy T)
    (SSP : StringSearchPolicy T) (UP : UnknownHandler T) : Type :=
  { m_entries : address }.

Arguments m_entries {T N ESP SSP UP} e.

Section Holder.
Context {T : Type} `{ValueType T}.
Context {N : nat} {ESP : EnumSearchPolicy T} {SSP : StringSearchPolicy T}
        {UP : UnknownHandler T}.

Definition fromValue (h : EnumHolder N ESP SSP UP) (value0 : T)
  : M T (Enum T) :=
  entries <- deref (m_entries h) ;;
  result <- lift (search_by_value ESP N value0 entries) ;;
  if Enum_eq result default_unknown_enum
  then lift (handle_value UP N value0 entries)
  else ret result.

Definition fromString (h : EnumHolder N ESP SSP UP) (name0 : string)
  : M T (Enum T) :=
  entries <- deref (m_entries h) ;;
  result <- lift (search_by_name SSP N name0 entries) ;;
  if Enum_eq result default_unknown_enum
  then lift (handle_name UP N name0 entries)
  else ret result.

Definition allValues (h : EnumHolder N ESP SSP UP)
  : M T (list (Enum T)) :=
  entries <- deref (m_entries h) ;;
  ret entries.

(** The reference of [h] designates a live [std::array<Enum<T>, N>];
    [N] is a [size_t]. *)
Definition bound_to (h : EnumHolder N ESP SSP UP) (m : Memory T)
    (entries : list (Enum T)) : Prop :=
  m !! m_entries h = Some entries /\ length entries = N /\
  Z.of_nat N <= SIZE_MAX.
End Holder.

(** * Vocabulary of the statements *)

Section Vocabulary.
Context {T : Type} `{ValueType T}.

(** Ascending by [value]: no entry is smaller than an earlier one. *)
Definition sorted_ascending (entries : list (Enum T)) : Prop :=
  forall (i j : nat) (a b : Enum T),
    (i < j)%nat -> entries !! i = Some a -> entries !! j = Some b ->
    vlt (value b) (value a) = false.

(** The two-step protocol of [fromValue] and [fromString] once the
    search result is known. *)
Definition or_unknown (found fallback : Outcome (Enum T)) : Outcome (Enum T) :=
  match found with
  | Ok result => if Enum_eq result default_unknown_enum then fallback else Ok result
  | Fault f => Fault f
  end.
End Vocabulary.

(** The ASCII case fold as the specification words it: the letters [A]
    to [Z] map to [a] to [z], every other character to itself, whatever
    the locale. *)
Definition ascii_case_fold (c : ascii) : ascii :=
  let n := N_of_ascii c in
  if ((65 <=? n) && (n <=? 90))%N then ascii_of_N (n + 32) else c.

(** Two names of equal length whose characters agree position by position
    once folded. *)
Definition fold_equal (a b : string) : Prop :=
  String.length a = String.length b /\
  forall (i : nat) (x y : ascii),
    String.get i a = Some x -> String.get i b = Some y ->
    ascii_case_fold x = ascii_case_fold y.

(** A name as [std::tolower] of the locale [L] sees it, character by
    character. *)
Fixpoint folded_name (L : Locale) (s : string) : list Z :=
  match s with
  | EmptyString => []
  | String c r =>
      lc_tolower L (policy.CaseInsensitiveStringSearchPolicy.to_uchar c)
        :: folded_name L r
  end.

(** Two names of equal length whose characters agree position by position
    once mapped by [std::tolower] of the locale [L]. *)
Definition locale_equal (L : Locale) (a b : string) : Prop :=
  String.length a = String.length b /\
  forall (i : nat) (x y : ascii),
    String.get i a = Some x -> String.get i b = Some y ->
    lc_tolower L (policy.CaseInsensitiveStringSearchPolicy.to_uchar x)
      = lc_tolower L (policy.CaseInsensitiveStringSearchPolicy.to_uchar y).

(** The locale gives every ASCII capital the lower case of its small
    letter. *)
Definition folds_ascii_letters (L : Locale) : Prop :=
  forall c : Z, 65 <= c <= 90 -> lc_tolower L c = lc_tolower L (c + 32).


(** ** The provided strategies, by name *)

Inductive value_strategy : Type := LinearSearch | SortedSearch.
Inductive name_strategy : Type := CaseSensitiveSearch | CaseInsensitiveSearch.

Section Strategies.
Context {T : Type} `{ValueType T}.

Definition value_policy (s : value_strategy) : EnumSearchPolicy T :=
  match s with LinearSearch => Linear | SortedSearch => Sorted end.

Definition name_policy (L : Locale) (s : name_strategy) : StringSearchPolicy T :=
  match s with
  | CaseSensitiveSearch => CaseSensitive
  | CaseInsensitiveSearch => CaseInsensitive L
  end.

(** When two names are the same name for a strategy under the locale
    [L]. *)
Definition same_name (L : Locale) (s : name_strategy) (a b : string) : Prop :=
  match s with
  | CaseSensitiveSearch => a = b
  | CaseInsensitiveSearch => locale_equal L a b
  end.

(** The documented obligation of the caller towards a value strategy. *)
Definition value_precondition (s : value_strategy) (entries : list (Enum T)) : Prop :=
  match s with
  | LinearSearch => True
  | SortedSearch => sorted_ascending entries
  end.

(** Names that no two entries share, for the comparison of a strategy:
    the names themselves, or the names as [std::tolower] of the locale
    sees them. *)
Definition names_distinct_for (L : Locale) (s : name_strategy)
    (entries : list (Enum T)) : Prop :=
  match s with
  | CaseSensitiveSearch => NoDup (name <$> entries)
  | CaseInsensitiveSearch => NoDup ((fun e => folded_name L (name e)) <$> entries)
  end.
End Strategies.

(** * Tables used in the examples *)

Local Open Scope string_scope.

(** The table of the test suite. *)

Definition colorEntries : list (Enum Z) :=
  [ mkEnum 1 "Red"; mkEnum 2 "Green"; mkEnum 3 "Blue"; mkEnum 0 "Unknown" ].

Definition colorMemory : Memory Z := {[ 0%nat := colorEntries ]}.

Definition ColorEnumHolder : EnumHolder 4 Linear CaseSensitive Unknown :=
  {| m_entries := 0%nat |}.

Definition InsensitiveHolder : EnumHolder 4 Linear (CaseInsensitive C_locale) Unknown :=
  {| m_entries := 0%nat |}.

(** The smallest sorted table and a query below its only value. *)
Definition singleEntry : list (Enum Z) := [ mkEnum 5 "a" ].

Definition singleMemory : Memory Z := {[ 0%nat := singleEntry ]}.

Definition SortedHolder1 : EnumHolder 1 Sorted CaseSensitive Unknown :=
  {| m_entries := 0%nat |}.

(** Two entries whose names differ only by case. *)
Definition caseTwins : list (Enum Z) := [ mkEnum 1 "Red"; mkEnum 2 "red" ].

Definition twinsMemory : Memory Z := {[ 0%nat := caseTwins ]}.

Definition TwinsHolder : EnumHolder 2 Linear (CaseInsensitive C_locale) Unknown :=
  {| m_entries := 0%nat |}.

(** A sorted table of three colours, for the sorted strategy. *)
Definition sortedColors : list (Enum Z) :=
  [ mkEnum 1 "Red"; mkEnum 2 "Green"; mkEnum 3 "Blue" ].

Definition sortedMemory : Memory Z := {[ 7%nat := sortedColors ]}.

Definition SortedInsensitiveHolder
  : EnumHolder 3 (value_policy SortedSearch)
      (name_policy C_locale CaseInsensitiveSearch) Unknown :=
  {| m_entries := 7%nat |}.

Definition SortedHolder3 : EnumHolder 3 Sorted CaseSensitive Unknown :=
  {| m_entries := 7%nat |}.

(** A table in which the value 2 is stored twice. *)
Definition duplicateEntries : list (Enum Z) :=
  [ mkEnum 1 "One"; mkEnum 2 "Two"; mkEnum 3 "Three"; mkEnum 2 "Deux" ].

Definition duplicateMemory : Memory Z := {[ 3%nat := duplicateEntries ]}.

Definition DuplicateHolder : EnumHolder 4 Linear CaseSensitive Unknown :=
  {| m_entries := 3%nat |}.



(** A table that stores the default-constructed entry, and an unknown
    policy of the kind the design allows besides the provided one: it
    answers with a fixed marker entry. *)
Definition withDefaultEntry : list (Enum Z) :=
  [ mkEnum 1 "Red"; mkEnum 0 EmptyString; mkEnum 2 "Green" ].

Definition defaultEntryMemory : Memory Z := {[ 2%nat := withDefaultEntry ]}.

Definition MarkerUnknown : UnknownHandler Z :=
  {| handle_value := fun _ _ _ => Ok (mkEnum (-1) "?");
     handle_name := fun _ _ _ => Ok (mkEnum (-1) "?") |}.

Definition MarkerHolder : EnumHolder 3 Linear CaseSensitive MarkerUnknown :=
  {| m_entries := 2%nat |}.

(** A sorted table in which the value 2 is stored twice. *)
Definition sortedTwins : list (Enum Z) :=
  [ mkEnum 1 "One"; mkEnum 2 "Two"; mkEnum 2 "Deux"; mkEnum 3 "Three" ].

Definition sortedTwinsMemory : Memory Z := {[ 4%nat := sortedTwins ]}.

Definition SortedTwinsHolder
  : EnumHolder 4 (value_policy SortedSearch)
      (name_policy C_locale CaseSensitiveSearch) Unknown :=
  {| m_entries := 4%nat |}.

(** One entry named by the letter E with an acute accent, capital (byte
    201 in ISO 8859-1); the small letter is byte 233. *)
Definition capitalEacute : string := String "201"%char EmptyString.

Definition smallEacute : string := String "233"%char EmptyString.

Definition accentEntries : list (Enum Z) := [ mkEnum 1 capitalEacute ].

Definition accentMemory : Memory Z := {[ 8%nat := accentEntries ]}.

Definition AccentHolder (L : Locale)
  : EnumHolder 1 Linear (CaseInsensitive L) Unknown :=
  {| m_entries := 8%nat |}.

(** A table that is not sorted. *)
Definition shuffledColors : list (Enum Z) :=
  [ mkEnum 2 "Green"; mkEnum 3 "Blue"; mkEnum 1 "Red" ].

(** ** The default binding of [common/enum.hpp] *)

(** [uint64_t]: the naturals below [2^64].  Neither [==] nor [<]
    overflows, so they are the comparisons of the naturals. *)
#[export] Instance uint64_ValueType : ValueType BinNums.N :=
  {| vdefault := 0%N; veq := N.eqb; vlt := N.ltb |}.

Definition DefaultEnum : Type := Enum BinNums.N.

Definition DefaultEnumHolder (n : nat) : Type :=
  EnumHolder (T:=BinNums.N) n Linear CaseSensitive Unknown.

(** Distinct names, the value 10 stored twice. *)
Definition levelEntries : list DefaultEnum :=
  [ mkEnum 10%N "Debug"; mkEnum 20%N "Info"; mkEnum 10%N "Trace" ].

(** Distinct values, the name "On" stored twice. *)
Definition switchEntries : list DefaultEnum :=
  [ mkEnum 1%N "On"; mkEnum 2%N "Off"; mkEnum 3%N "On" ].

Definition levelMemory : Memory BinNums.N :=
  {[ 9%nat := levelEntries; 10%nat := switchEntries ]}.

Definition LevelHolder : DefaultEnumHolder 3 := {| m_entries := 9%nat |}.

Definition SwitchHolder : DefaultEnumHolder 3 := {| m_entries := 10%nat |}.

(** ** Vocabulary of the further properties *)

Section MoreVocabulary.
Context {T : Type} `{ValueType T}.

(** [Enum::operator T()] *)
Definition to_value (e : Enum T) : T := value e.

(** A check of [sorted_ascending] that computes. *)
Fixpoint ascendingb (entries : list (Enum T)) : bool :=
  match entries with
  | [] => true
  | a :: rest =>
      forallb (fun b => negb (vlt (value b) (value a))) rest && ascendingb rest
  end.

(** [e] is the first entry of the array that satisfies [P]. *)
Definition first_with (P : Enum T -> Prop) (entries : list (Enum T))
    (e : Enum T) : Prop :=
  exists i : nat,
    entries !! i = Some e /\ P e /\
    forall (k : nat) (x : Enum T), (k < i)%nat -> entries !! k = Some x -> ~ P x.

(** No entry of the array satisfies [P]. *)
Definition none_with (P : Enum T -> Prop) (entries : list (Enum T)) : Prop :=
  forall x : Enum T, x ∈ entries -> ~ P x.
End MoreVocabulary.

Local Close Scope string_scope.

(** * Basic facts *)

(** Discharges [bound_to] for a concrete holder, memory and array. *)
Ltac live_array :=
  split; [reflexivity | split; [reflexivity | vm_compute; discriminate]].

#[export] Instance Z_LawfulValue : LawfulValue Z.
Proof.
  split; simpl; intros.
  - apply Z.eqb_eq.
  - apply Z.ltb_irrefl.
  - apply Z.ltb_lt. apply Z.ltb_lt in H, H0. lia.
  - apply Z.ltb_ge in H, H0. lia.
Qed.

Lemma wrap_small (x : Z) : 0 <= x <= SIZE_MAX -> wrap x = x.
Proof. unfold wrap, SIZE_MAX. intros Hx. apply Z.mod_small. lia. Qed.

Section EnumFacts.
Context {T : Type} `{LawfulValue T}.

Lemma veq_refl (a : T) : veq a a = true.
Proof. by apply veq_spec. Qed.

Lemma veq_false (a b : T) : veq a b = false <-> a <> b.
Proof.
  split.
  - intros Hf Heq. apply veq_spec in Heq. congruence.
  - intros Hne. destruct (veq a b) eqn:E; [|done].
    apply veq_spec in E. done.
Qed.

Lemma Enum_eq_spec (a b : Enum T) : Enum_eq a b = true <-> a = b.
Proof.
  unfold Enum_eq. destruct a as [va na], b as [vb nb]; simpl.
  split.
  - destruct (veq va vb) eqn:Ev; simpl; [|done].
    destruct (String.eqb na nb) eqn:En; [|done].
    intros _. apply veq_spec in Ev. apply String.eqb_eq in En. congruence.
  - intros [= -> ->]. by rewrite veq_refl, String.eqb_refl.
Qed.

Lemma Enum_eq_default : Enum_eq (default_unknown_enum (T:=T)) default_unknown_enum = true.
Proof. by apply Enum_eq_spec. Qed.

Lemma at_index_Ok (entries : list (Enum T)) (i : Z) (e : Enum T) :
  0 <= i -> entries !! Z.to_nat i = Some e -> at_index entries i = Ok e.
Proof.
  intros Hi Hl. unfold at_index.
  pose proof (lookup_lt_Some _ _ _ Hl) as Hlt.
  replace (0 <=? i) with true by (symmetry; apply Z.leb_le; lia).
  replace (i <? Z.of_nat (length entries)) with true
    by (symmetry; apply Z.ltb_lt; lia).
  simpl. by rewrite Hl.
Qed.

Lemma at_index_in_range (entries : list (Enum T)) (i : Z) :
  0 <= i < Z.of_nat (length entries) ->
  exists e, entries !! Z.to_nat i = Some e /\ at_index entries i = Ok e.
Proof.
  intros Hi.
  destruct (lookup_lt_is_Some_2 entries (Z.to_nat i)) as [e He]; [lia|].
  exists e. split; [done|]. apply at_index_Ok; [lia|done].
Qed.

Lemma at_index_past_end (entries : list (Enum T)) (i : Z) :
  Z.of_nat (length entries) <= i -> at_index entries i = Fault (OutOfBounds i).
Proof.
  intros Hi. unfold at_index.
  replace (i <? Z.of_nat (length entries)) with false
    by (symmetry; apply Z.ltb_ge; lia).
  by rewrite andb_false_r.
Qed.
End EnumFacts.

(** * The linear scans return the first match *)

Section LinearScans.
Context {T : Type} `{LawfulValue T}.

Lemma linear_scan_first (v : T) (entries : list (Enum T)) (i : nat) (e : Enum T) :
  entries !! i = Some e ->
  value e = v ->
  (forall k x, (k < i)%nat -> entries !! k = Some x -> value x <> v) ->
  policy.LinearSearchPolicy.scan v entries = e.
Proof.
  revert i. induction entries as [|a rest IH]; intros i Hi Hv Hfirst.
  - by rewrite lookup_nil in Hi.
  - simpl. destruct i as [|i].
    + simpl in Hi. injection Hi as ->. subst v. by rewrite veq_refl.
    + assert (value a <> v) as Hne by (apply (Hfirst 0%nat); [lia|done]).
      apply veq_false in Hne. rewrite Hne.
      apply (IH i); [done|done|].
      intros k x Hk Hx. apply (Hfirst (S k)); [lia|done].
Qed.

Lemma linear_scan_absent (v : T) (entries : list (Enum T)) :
  (forall x, x ∈ entries -> value x <> v) ->
  policy.LinearSearchPolicy.scan v entries = default_unknown_enum.
Proof.
  induction entries as [|a rest IH]; intros Hno; [done|].
  simpl. assert (value a <> v) as Hne by (apply Hno; left).
  apply veq_false in Hne. rewrite Hne.
  apply IH. intros x Hx. apply Hno. by right.
Qed.

Lemma sensitive_scan_first (n : string) (entries : list (Enum T)) (i : nat) (e : Enum T) :
  entries !! i = Some e ->
  name e = n ->
  (forall k x, (k < i)%nat -> entries !! k = Some x -> name x <> n) ->
  policy.CaseSensitiveStringSearchPolicy.scan n entries = e.
Proof.
  revert i. induction entries as [|a rest IH]; intros i Hi Hv Hfirst.
  - by rewrite lookup_nil in Hi.
  - simpl. destruct i as [|i].
    + simpl in Hi. injection Hi as ->. subst n. by rewrite String.eqb_refl.
    + assert (name a <> n) as Hne by (apply (Hfirst 0%nat); [lia|done]).
      apply String.eqb_neq in Hne. rewrite Hne.
      apply (IH i); [done|done|].
      intros k x Hk Hx. apply (Hfirst (S k)); [lia|done].
Qed.

Lemma sensitive_scan_absent (n : string) (entries : list (Enum T)) :
  (forall x, x ∈ entries -> name x <> n) ->
  policy.CaseSensitiveStringSearchPolicy.scan n entries = default_unknown_enum.
Proof.
  induction entries as [|a rest IH]; intros Hno; [done|].
  simpl. assert (name a <> n) as Hne by (apply Hno; left).
  apply String.eqb_neq in Hne. rewrite Hne.
  apply IH. intros x Hx. apply Hno. by right.
Qed.

(** With pairwise distinct keys every entry is the first one for its key. *)
Lemma NoDup_keys_first {K} (key : Enum T -> K) (entries : list (Enum T))
    (i k : nat) (e x : Enum T) :
  NoDup (key <$> entries) ->
  entries !! i = Some e -> entries !! k = Some x ->
  key x = key e -> k = i.
Proof.
  intros Hnd Hi Hk Heq.
  apply (NoDup_lookup (key <$> entries) k i (key e)); [done| |].
  - by rewrite list_lookup_fmap, Hk; simpl; rewrite Heq.
  - by rewrite list_lookup_fmap, Hi.
Qed.
End LinearScans.

(** * The binary search *)

Section SortedSearch.
Context {T : Type} `{LawfulValue T}.

Import policy.SortedSearchPolicy.

Lemma midpoint_in_range (left right : Z) :
  0 <= left <= right -> right <= SIZE_MAX ->
  midpoint left right = left + (right - left) / 2 /\
  left <= midpoint left right <= right.
Proof.
  intros Hlr Hr. unfold midpoint, size_add, size_div, size_sub.
  rewrite (wrap_small (right - left)) by lia.
  assert (0 <= (right - left) / 2 <= right - left).
  { split; [apply Z.div_pos; lia|]. apply Z.div_le_upper_bound; lia. }
  rewrite wrap_small by lia. lia.
Qed.

Lemma midpoint_after_underflow : midpoint 0 SIZE_MAX = 2 ^ 63 - 1.
Proof. reflexivity. Qed.

Lemma loop_step (fuel : nat) (v : T) (entries : list (Enum T)) (left right : Z) :
  loop (S fuel) v entries left right =
  if left <=? right then
    match at_index entries (midpoint left right) with
    | Fault f => Fault f
    | Ok e =>
        if veq (value e) v then Ok e
        else if vlt (value e) v
             then loop fuel v entries (size_add (midpoint left right) 1) right
             else loop fuel v entries left (size_sub (midpoint left right) 1)
    end
  else Ok default_unknown_enum.
Proof. reflexivity. Qed.

(** A value that is stored is found, and the search stays inside the
    interval that holds it. *)
Lemma loop_finds (entries : list (Enum T)) (k : nat) (e : Enum T) :
  sorted_ascending entries ->
  NoDup (value <$> entries) ->
  Z.of_nat (length entries) <= SIZE_MAX ->
  entries !! k = Some e ->
  forall (fuel : nat) (left right : Z),
    0 <= left <= Z.of_nat k -> Z.of_nat k <= right < Z.of_nat (length entries) ->
    right - left + 1 <= Z.of_nat fuel ->
    loop fuel (value e) entries left right = Ok e.
Proof.
  intros Hsorted Hnd Hmax Hk fuel.
  induction fuel as [|fuel IH]; intros left right Hl Hr Hfuel; [lia|].
  rewrite loop_step.
  replace (left <=? right) with true by (symmetry; apply Z.leb_le; lia).
  destruct (midpoint_in_range left right) as [Hmid Hbounds]; [lia|lia|].
  destruct (at_index_in_range entries (midpoint left right)) as (e' & He' & ->); [lia|].
  destruct (veq (value e') (value e)) eqn:Eeq.
  { apply veq_spec in Eeq.
    assert (Z.to_nat (midpoint left right) = k) as Hidx
      by (by eapply (NoDup_keys_first value)).
    rewrite Hidx in He'. congruence. }
  assert (Z.to_nat (midpoint left right) <> k) as Hne.
  { intros Hidx. rewrite Hidx in He'. assert (e' = e) as -> by congruence.
    by rewrite veq_refl in Eeq. }
  destruct (vlt (value e') (value e)) eqn:Elt.
  - assert (midpoint left right < Z.of_nat k) as Hlt.
    { destruct (Z_lt_le_dec (midpoint left right) (Z.of_nat k)) as [|Hge]; [done|].
      rewrite (Hsorted k (Z.to_nat (midpoint left right)) e e') in Elt;
        [done|lia|done|done]. }
    unfold size_add. rewrite wrap_small by lia.
    apply IH; lia.
  - assert (Z.of_nat k < midpoint left right) as Hgt.
    { destruct (Z_lt_le_dec (Z.of_nat k) (midpoint left right)) as [|Hge]; [done|].
      assert (vlt (value e) (value e') = false) as Hrev.
      { apply (Hsorted (Z.to_nat (midpoint left right)) k e' e); [lia|done|done]. }
      pose proof (vlt_connex _ _ Elt Hrev) as Hsame.
      apply veq_spec in Hsame. congruence. }
    unfold size_sub. rewrite wrap_small by lia.
    apply IH; lia.
Qed.

Lemma sorted_search_finds (N : nat) (entries : list (Enum T)) (k : nat) (e : Enum T) :
  length entries = N ->
  Z.of_nat N <= SIZE_MAX ->
  sorted_ascending entries ->
  NoDup (value <$> entries) ->
  entries !! k = Some e ->
  search N (value e) entries = Ok e.
Proof.
  intros Hlen Hmax Hsorted Hnd Hk. unfold search.
  pose proof (lookup_lt_Some _ _ _ Hk) as Hlt.
  unfold size_sub. rewrite wrap_small by lia.
  apply (loop_finds entries k); [done|done|lia|done|lia|lia|lia].
Qed.

(** A query below every stored value walks [right] down to index 0 and
    then computes [0 - 1] in [size_t]. *)
Lemma loop_below (v : T) (entries : list (Enum T)) :
  (forall x, x ∈ entries -> veq (value x) v = false /\ vlt (value x) v = false) ->
  Z.of_nat (length entries) <= 2 ^ 63 - 1 ->
  forall (fuel : nat) (right : Z),
    0 <= right < Z.of_nat (length entries) ->
    right + 2 <= Z.of_nat fuel ->
    loop fuel v entries 0 right = Fault (OutOfBounds (2 ^ 63 - 1)).
Proof.
  intros Habove Hlen fuel.
  induction fuel as [|fuel IH]; intros right Hr Hfuel; [lia|].
  rewrite loop_step.
  replace (0 <=? right) with true by (symmetry; apply Z.leb_le; lia).
  destruct (midpoint_in_range 0 right) as [Hmid Hbounds];
    [lia|unfold SIZE_MAX; lia|].
  destruct (at_index_in_range entries (midpoint 0 right)) as (e' & He' & ->); [lia|].
  destruct (Habove e') as [-> ->]; [by eapply list_elem_of_lookup_2|].
  destruct (Z.eq_dec (midpoint 0 right) 0) as [Hz|Hnz].
  - rewrite Hz. change (size_sub 0 1) with SIZE_MAX.
    destruct fuel as [|fuel]; [lia|].
    rewrite loop_step. change (0 <=? SIZE_MAX) with true. cbv iota.
    rewrite midpoint_after_underflow.
    by rewrite at_index_past_end.
  - unfold size_sub. rewrite wrap_small by (unfold SIZE_MAX; lia).
    apply IH; lia.
Qed.

Lemma sorted_search_below (N : nat) (v : T) (entries : list (Enum T)) :
  length entries = N ->
  Z.of_nat N <= 2 ^ 63 - 1 ->
  (forall x, x ∈ entries -> veq (value x) v = false /\ vlt (value x) v = false) ->
  search N v entries = Fault (OutOfBounds (2 ^ 63 - 1)).
Proof.
  intros Hlen Hmax Habove. unfold search.
  destruct N as [|N].
  - destruct entries; [|done]. reflexivity.
  - unfold size_sub. rewrite wrap_small by (unfold SIZE_MAX; lia).
    apply loop_below; [done|lia|lia|lia].
Qed.
End SortedSearch.

Section SortedSearchTermination.
Context {T : Type} `{LawfulValue T}.

Import policy.SortedSearchPolicy.

(** A query that is not stored and lies above the first entry never
    reaches the underflow: the interval empties and the sentinel is
    returned. *)
Lemma loop_absent_above (v : T) (entries : list (Enum T)) (e0 : Enum T) :
  (forall x, x ∈ entries -> veq (value x) v = false) ->
  entries !! 0%nat = Some e0 -> vlt (value e0) v = true ->
  Z.of_nat (length entries) <= SIZE_MAX ->
  forall (fuel : nat) (left right : Z),
    0 <= left <= right + 1 -> 0 <= right < Z.of_nat (length entries) ->
    right - left + 2 <= Z.of_nat fuel ->
    loop fuel v entries left right = Ok default_unknown_enum.
Proof.
  intros Hno He0 Hlt0 Hmax fuel.
  induction fuel as [|fuel IH]; intros left right Hl Hr Hfuel; [lia|].
  rewrite loop_step.
  destruct (Z.leb_spec left right) as [Hle|Hgt]; [|done].
  destruct (midpoint_in_range left right) as [Hmid Hbounds]; [lia|lia|].
  destruct (at_index_in_range entries (midpoint left right)) as (e' & He' & ->); [lia|].
  rewrite (Hno e') by (by eapply list_elem_of_lookup_2).
  destruct (vlt (value e') v) eqn:Elt.
  - unfold size_add. rewrite wrap_small by lia. apply IH; lia.
  - assert (midpoint left right <> 0) as Hnz.
    { intros Hz. rewrite Hz in He'. change (Z.to_nat 0) with 0%nat in He'.
      congruence. }
    unfold size_sub. rewrite wrap_small by lia. apply IH; lia.
Qed.

Lemma sorted_search_absent_above (N : nat) (v : T) (entries : list (Enum T))
    (e0 : Enum T) :
  length entries = N ->
  Z.of_nat N <= SIZE_MAX ->
  (forall x, x ∈ entries -> veq (value x) v = false) ->
  entries !! 0%nat = Some e0 -> vlt (value e0) v = true ->
  search N v entries = Ok default_unknown_enum.
Proof.
  intros Hlen Hmax Hno He0 Hlt0. unfold search.
  pose proof (lookup_lt_Some _ _ _ He0) as Hpos.
  unfold size_sub. rewrite wrap_small by lia.
  apply (loop_absent_above v entries e0); [done|done|done|lia|lia|lia|lia].
Qed.

(** The fuel given by [search] is never what ends the loop. *)
Lemma loop_fuel_suffices (v : T) (entries : list (Enum T)) :
  Z.of_nat (length entries) <= 2 ^ 63 - 1 ->
  forall (fuel : nat) (left right : Z),
    0 <= left <= right + 1 -> 0 <= right < Z.of_nat (length entries) ->
    right - left + 3 <= Z.of_nat fuel ->
    loop fuel v entries left right <> Fault OutOfFuel.
Proof.
  intros Hmax fuel.
  induction fuel as [|fuel IH]; intros left right Hl Hr Hfuel; [lia|].
  rewrite loop_step.
  destruct (Z.leb_spec left right) as [Hle|Hgt]; [|done].
  destruct (midpoint_in_range left right) as [Hmid Hbounds];
    [lia|unfold SIZE_MAX; lia|].
  destruct (at_index_in_range entries (midpoint left right)) as (e' & He' & ->); [lia|].
  destruct (veq (value e') v); [done|].
  destruct (vlt (value e') v).
  - unfold size_add. rewrite wrap_small by (unfold SIZE_MAX; lia). apply IH; lia.
  - destruct (Z.eq_dec (midpoint left right) 0) as [Hz|Hnz].
    + assert (left = 0) as -> by lia.
      rewrite Hz. change (size_sub 0 1) with SIZE_MAX.
      destruct fuel as [|fuel]; [lia|].
      rewrite loop_step. change (0 <=? SIZE_MAX) with true. cbv iota.
      rewrite midpoint_after_underflow.
      by rewrite at_index_past_end.
    + unfold size_sub. rewrite wrap_small by (unfold SIZE_MAX; lia).
      apply IH; lia.
Qed.

Lemma sorted_search_fuel_suffices (N : nat) (v : T) (entries : list (Enum T)) :
  length entries = N ->
  Z.of_nat N <= 2 ^ 63 - 1 ->
  search N v entries <> Fault OutOfFuel.
Proof.
  intros Hlen Hmax. unfold search.
  destruct N as [|N].
  - destruct entries; [|done]. done.
  - unfold size_sub. rewrite wrap_small by (unfold SIZE_MAX; lia).
    apply loop_fuel_suffices; lia.
Qed.
End SortedSearchTermination.

(** * Case-insensitive comparison *)

Section CaseFold.
Import policy.CaseInsensitiveStringSearchPolicy.

Lemma to_uchar_inj (a b : ascii) : to_uchar a = to_uchar b -> a = b.
Proof.
  unfold to_uchar. intros Heq. apply N2Z.inj in Heq.
  rewrite <- (ascii_N_embedding a), <- (ascii_N_embedding b). by rewrite Heq.
Qed.

(** In the "C" locale [std::tolower] is the ASCII case fold. *)
Lemma C_tolower_is_fold (c : ascii) :
  lc_tolower C_locale (to_uchar c) = to_uchar (ascii_case_fold c).
Proof.
  destruct c as [[] [] [] [] [] [] [] []]; reflexivity.
Qed.

Lemma folded_name_length (L : Locale) (s : string) :
  length (folded_name L s) = String.length s.
Proof. induction s as [|c r IH]; simpl; congruence. Qed.

Lemma std_equal_folded (L : Locale) (s1 s2 : string) (pos : Z) :
  String.length s1 = String.length s2 ->
  std_equal (caseInsensitiveEqual L) pos s1 s2 =
    Ok (bool_decide (folded_name L s1 = folded_name L s2)).
Proof.
  revert s2 pos. induction s1 as [|a r1 IH]; intros [|b r2] pos Hlen;
    simpl in *; try done.
  unfold caseInsensitiveEqual, tolower.
  destruct (Z.eqb_spec (lc_tolower L (to_uchar a)) (lc_tolower L (to_uchar b)))
    as [Hc|Hc].
  - rewrite IH by congruence. f_equal. apply bool_decide_ext.
    rewrite Hc. split; [congruence|]. by intros [= ->].
  - f_equal. symmetry. apply bool_decide_eq_false. by intros [= ? _].
Qed.

(** The loop condition never reads past the query and decides whether
    the two names look alike to [std::tolower]. *)
Lemma names_match_folded (L : Locale) (name0 entry_name : string) :
  names_match L name0 entry_name =
    Ok (bool_decide (folded_name L entry_name = folded_name L name0)).
Proof.
  unfold names_match.
  destruct (Nat.eqb_spec (String.length name0) (String.length entry_name)) as [Hlen|Hlen].
  - by apply std_equal_folded.
  - f_equal. symmetry. apply bool_decide_eq_false. intros Heq.
    apply Hlen. rewrite <- (folded_name_length L name0), <- Heq.
    apply folded_name_length.
Qed.

Lemma folded_name_eq_iff (L : Locale) (a b : string) :
  folded_name L a = folded_name L b <-> locale_equal L a b.
Proof.
  unfold locale_equal. revert b.
  induction a as [|x ra IH]; intros [|y rb]; simpl.
  - split; [|done]. intros _. split; [done|]. by intros i ? ? [=].
  - split; [done|]. by intros [[=] _].
  - split; [done|]. by intros [[=] _].
  - split.
    + intros [= Hc Hr]. apply IH in Hr as [Hlen Hpt]. split; [by f_equal|].
      intros [|i] x' y'; simpl.
      * by intros [= <-] [= <-].
      * apply Hpt.
    + intros [[= Hlen] Hpt]. f_equal.
      * by apply (Hpt 0%nat).
      * apply IH. split; [done|]. intros i. apply (Hpt (S i)).
Qed.

Lemma names_match_true (L : Locale) (name0 entry_name : string) :
  names_match L name0 entry_name = Ok true <-> locale_equal L name0 entry_name.
Proof.
  rewrite names_match_folded, <- folded_name_eq_iff. split.
  - intros [= Heq]. by apply bool_decide_eq_true in Heq.
  - intros Heq. f_equal. by apply bool_decide_eq_true.
Qed.

Lemma names_match_false (L : Locale) (name0 entry_name : string) :
  names_match L name0 entry_name = Ok false <-> ~ locale_equal L name0 entry_name.
Proof.
  rewrite names_match_folded, <- folded_name_eq_iff. split.
  - intros [= Heq]. apply bool_decide_eq_false in Heq. congruence.
  - intros Hne. f_equal. apply bool_decide_eq_false. congruence.
Qed.

(** In the "C" locale, looking alike to [std::tolower] is being equal up
    to the ASCII case fold. *)
Lemma C_locale_equal_iff (a b : string) :
  locale_equal C_locale a b <-> fold_equal a b.
Proof.
  unfold locale_equal, fold_equal. split; intros [Hlen Hpt]; (split; [done|]);
    intros i x y Hx Hy; specialize (Hpt i x y Hx Hy).
  - rewrite !C_tolower_is_fold in Hpt. by apply to_uchar_inj.
  - rewrite !C_tolower_is_fold. by rewrite Hpt.
Qed.

End CaseFold.

Section InsensitiveScan.
Context {T : Type} `{ValueType T}.

Import policy.CaseInsensitiveStringSearchPolicy.

(** The scan as a function of the folded names alone. *)
Lemma insensitive_scan_unfold (L : Locale) (name0 : string) (entry : Enum T)
    (rest : list (Enum T)) :
  scan L name0 (entry :: rest) =
    if bool_decide (folded_name L (name entry) = folded_name L name0)
    then Ok entry else scan L name0 rest.
Proof. simpl. by rewrite names_match_folded. Qed.

Lemma insensitive_scan_first (L : Locale) (n : string) (entries : list (Enum T))
    (i : nat) (e : Enum T) :
  entries !! i = Some e ->
  locale_equal L n (name e) ->
  (forall k x, (k < i)%nat -> entries !! k = Some x -> ~ locale_equal L n (name x)) ->
  scan L n entries = Ok e.
Proof.
  revert i. induction entries as [|a rest IH]; intros i Hi Hm Hfirst.
  - by rewrite lookup_nil in Hi.
  - destruct i as [|i]; simpl.
    + simpl in Hi. injection Hi as ->.
      apply names_match_true in Hm. by rewrite Hm.
    + assert (~ locale_equal L n (name a)) as Hne by (apply (Hfirst 0%nat); [lia|done]).
      apply names_match_false in Hne. rewrite Hne.
      apply (IH i); [done|done|].
      intros k x Hk Hx. apply (Hfirst (S k)); [lia|done].
Qed.

Lemma insensitive_scan_absent (L : Locale) (n : string) (entries : list (Enum T)) :
  (forall x, x ∈ entries -> ~ locale_equal L n (name x)) ->
  scan L n entries = Ok default_unknown_enum.
Proof.
  induction entries as [|a rest IH]; intros Hno; [done|].
  simpl. assert (~ locale_equal L n (name a)) as Hne by (apply Hno; left).
  apply names_match_false in Hne. rewrite Hne.
  apply IH. intros x Hx. apply Hno. by right.
Qed.

(** Queries that look alike to [std::tolower] are indistinguishable to
    the scan. *)
Lemma insensitive_scan_same_fold (L : Locale) (n1 n2 : string)
    (entries : list (Enum T)) :
  folded_name L n1 = folded_name L n2 -> scan L n1 entries = scan L n2 entries.
Proof.
  intros Hfold. induction entries as [|a rest IH]; [done|].
  rewrite !insensitive_scan_unfold, Hfold. by rewrite IH.
Qed.

End InsensitiveScan.

(** * Running the holder's operations *)

Section HolderRuns.
Context {T : Type} `{ValueType T}.
Context {N : nat} {ESP : EnumSearchPolicy T} {SSP : StringSearchPolicy T}
        {UP : UnknownHandler T}.
Implicit Types (h : EnumHolder N ESP SSP UP) (m : Memory T).

Lemma fromValue_run h m (entries : list (Enum T)) (v : T) :
  m !! m_entries h = Some entries ->
  fromValue h v m =
    (or_unknown (search_by_value ESP N v entries) (handle_value UP N v entries), m).
Proof.
  intros Hm. unfold fromValue, bind, deref, lift, ret, or_unknown. rewrite Hm.
  destruct (search_by_value ESP N v entries) as [r|f]; [|done].
  by destruct (Enum_eq r default_unknown_enum).
Qed.

Lemma fromString_run h m (entries : list (Enum T)) (n : string) :
  m !! m_entries h = Some entries ->
  fromString h n m =
    (or_unknown (search_by_name SSP N n entries) (handle_name UP N n entries), m).
Proof.
  intros Hm. unfold fromString, bind, deref, lift, ret, or_unknown. rewrite Hm.
  destruct (search_by_name SSP N n entries) as [r|f]; [|done].
  by destruct (Enum_eq r default_unknown_enum).
Qed.

Lemma allValues_run h m (entries : list (Enum T)) :
  m !! m_entries h = Some entries -> allValues h m = (Ok entries, m).
Proof. intros Hm. unfold allValues, bind, deref, ret. by rewrite Hm. Qed.

Lemma fromValue_dangling h m (v : T) :
  m !! m_entries h = None -> fromValue h v m = (Fault DanglingReference, m).
Proof. intros Hm. unfold fromValue, bind, deref. by rewrite Hm. Qed.

Lemma fromString_dangling h m (n : string) :
  m !! m_entries h = None -> fromString h n m = (Fault DanglingReference, m).
Proof. intros Hm. unfold fromString, bind, deref. by rewrite Hm. Qed.

Lemma allValues_dangling h m :
  m !! m_entries h = None -> allValues h m = (Fault DanglingReference, m).
Proof. intros Hm. unfold allValues, bind, deref. by rewrite Hm. Qed.
End HolderRuns.

Section UnknownFallback.
Context {T : Type} `{LawfulValue T}.

(** With the provided unknown policy a found entry is returned as it is,
    the sentinel included. *)
Lemma or_unknown_found (e : Enum T) :
  or_unknown (Ok e) (Ok default_unknown_enum) = Ok e.
Proof.
  unfold or_unknown. destruct (Enum_eq e default_unknown_enum) eqn:E; [|done].
  apply Enum_eq_spec in E. by rewrite E.
Qed.
End UnknownFallback.


(** * Claims about the binary search *)

Local Open Scope string_scope.

(** Claim C1 (found to fail on the code).  For the sorted one-entry array
    [(5,"a")] and the query 3, which matches no entry, the search does not
    return the sentinel: after comparing with index 0 it computes
    [right = 0 - 1] in [size_t], which is [SIZE_MAX], keeps looping and
    reads [entries[2^63 - 1]], outside the array. *)
Theorem sorted_search_underflows_below_first :
  sorted_ascending singleEntry /\
  (forall x, x ∈ singleEntry -> value x <> 3) /\
  policy.SortedSearchPolicy.search 1 3 singleEntry
    = Fault (OutOfBounds (2 ^ 63 - 1)).
Proof.
  split; [|split].
  - intros i j a b Hij Hi Hj. apply lookup_lt_Some in Hj. simpl in Hj. lia.
  - intros x Hx. apply list_elem_of_singleton in Hx as ->. simpl. lia.
  - vm_compute. reflexivity.
Qed.

(** Claim C2 (found to fail on the code).  With the sorted strategy bound
    to a sorted array, [fromValue] is not total: on the one-entry table
    [(5,"a")] the query 3 makes it read index [2^63 - 1] of an array of
    size 1, and no entry is produced. *)
Theorem fromValue_sorted_reads_out_of_bounds :
  sorted_ascending singleEntry /\
  bound_to SortedHolder1 singleMemory singleEntry /\
  fromValue SortedHolder1 3 singleMemory
    = (Fault (OutOfBounds (2 ^ 63 - 1)), singleMemory).
Proof.
  split; [|split].
  - intros i j a b Hij Hi Hj. apply lookup_lt_Some in Hj. simpl in Hj. lia.
  - live_array.
  - vm_compute. reflexivity.
Qed.

Section LinearTotal.
Context {T : Type} `{LawfulValue T}.
Context {N : nat} {SSP : StringSearchPolicy T}.

(** With the linear strategy and the provided unknown policy [fromValue]
    always produces an entry and reads the array only through the
    range-for loop. *)
Lemma fromValue_linear_total (h : EnumHolder N Linear SSP Unknown)
    (m : Memory T) (entries : list (Enum T)) (v : T) :
  m !! m_entries h = Some entries ->
  fromValue h v m = (Ok (policy.LinearSearchPolicy.scan v entries), m).
Proof.
  intros Hm. rewrite (fromValue_run h m entries v Hm).
  change (search_by_value Linear N v entries)
    with (Ok (policy.LinearSearchPolicy.scan v entries)).
  change (handle_value Unknown N v entries)
    with (Ok (default_unknown_enum (T:=T))).
  by rewrite or_unknown_found.
Qed.
End LinearTotal.

(** * Round trip *)

(** Claim C3, as stated, fails: the values [1; 2] and the names
    ["Red"; "red"] are pairwise distinct, [(2,"red")] is an entry of the
    table, and yet under the case-insensitive strategy, here in the "C"
    locale, [fromString "red"] returns the earlier entry [(1,"Red")]. *)
Lemma roundtrip_fails_on_names_equal_up_to_case :
  NoDup (value <$> caseTwins) /\
  NoDup (name <$> caseTwins) /\
  bound_to TwinsHolder twinsMemory caseTwins /\
  mkEnum 2 "red" ∈ caseTwins /\
  fromString TwinsHolder (name (mkEnum 2 "red")) twinsMemory
    = (Ok (mkEnum 1 "Red"), twinsMemory) /\
  Enum_eq (mkEnum 1 "Red") (mkEnum 2 "red") = false.
Proof.
  split; [|split; [|split; [|split; [|split]]]].
  - apply (bool_decide_unpack _). vm_compute. exact I.
  - apply (bool_decide_unpack _). vm_compute. exact I.
  - live_array.
  - right. left.
  - vm_compute. reflexivity.
  - reflexivity.
Qed.

Section RoundTrip.
Context {T : Type} `{LawfulValue T}.
Context {N : nat}.

Lemma locale_equal_refl (L : Locale) (s : string) : locale_equal L s s.
Proof. by apply folded_name_eq_iff. Qed.

(** Claim C3 (amended).  Take a table of [N] entries with pairwise
    distinct values and with names that are pairwise distinct for the
    bound name strategy (as written for the case-sensitive one; for the
    case-insensitive one after [std::tolower] of the current locale is
    applied to every character, which in the "C" locale is the ASCII
    case fold), sorted ascending when the sorted strategy is bound.
    Then for every entry [e] of the array [fromValue (value e)] and
    [fromString (name e)] both return [e], for each of the four
    combinations of the provided strategies and in every locale. *)
Theorem roundtrip_every_entry (L : Locale)
    (vs : value_strategy) (ns : name_strategy)
    (h : EnumHolder N (value_policy vs) (name_policy L ns) Unknown)
    (m : Memory T) (entries : list (Enum T)) (e : Enum T) :
  bound_to h m entries ->
  NoDup (value <$> entries) ->
  names_distinct_for L ns entries ->
  value_precondition vs entries ->
  e ∈ entries ->
  fromValue h (value e) m = (Ok e, m) /\
  fromString h (name e) m = (Ok e, m).
Proof.
  intros (Hm & Hlen & Hmax) Hvals Hnames Hpre He.
  apply list_elem_of_lookup in He as [i Hi].
  split.
  - rewrite (fromValue_run h m entries _ Hm).
    change (handle_value Unknown N (value e) entries)
      with (Ok (default_unknown_enum (T:=T))).
    assert (search_by_value (value_policy vs) N (value e) entries = Ok e) as ->.
    { destruct vs; simpl.
      - unfold policy.LinearSearchPolicy.search. f_equal.
        apply (linear_scan_first _ _ i); [done|done|].
        intros k x Hk Hx Heq.
        assert (k = i) by (by eapply (NoDup_keys_first value)). lia.
      - by apply (sorted_search_finds N entries i). }
    by rewrite or_unknown_found.
  - rewrite (fromString_run h m entries _ Hm).
    change (handle_name Unknown N (name e) entries)
      with (Ok (default_unknown_enum (T:=T))).
    assert (search_by_name (name_policy L ns) N (name e) entries = Ok e) as ->.
    { destruct ns; simpl in *.
      - unfold policy.CaseSensitiveStringSearchPolicy.search. f_equal.
        apply (sensitive_scan_first _ _ i); [done|done|].
        intros k x Hk Hx Heq.
        assert (k = i) by (by eapply (NoDup_keys_first name)). lia.
      - unfold policy.CaseInsensitiveStringSearchPolicy.search.
        apply (insensitive_scan_first L _ _ i); [done|apply locale_equal_refl|].
        intros k x Hk Hx Heq. apply folded_name_eq_iff in Heq.
        assert (k = i)
          by (by eapply (NoDup_keys_first (fun y => folded_name L (name y)))).
        lia. }
    by rewrite or_unknown_found.
Qed.
End RoundTrip.

Lemma sortedColors_ascending : sorted_ascending sortedColors.
Proof.
  intros i j a b Hij Hi Hj.
  destruct i as [|[|[|i]]]; simpl in Hi; try done; injection Hi as <-;
    destruct j as [|[|[|j]]]; simpl in Hj; try done; try lia;
    injection Hj as <-; reflexivity.
Defined.

Lemma roundtrip_every_entry_witness :
  fromValue SortedInsensitiveHolder 2 sortedMemory
    = (Ok (mkEnum 2 "Green"), sortedMemory) /\
  fromString SortedInsensitiveHolder "Green" sortedMemory
    = (Ok (mkEnum 2 "Green"), sortedMemory).
Proof.
  apply (roundtrip_every_entry C_locale SortedSearch CaseInsensitiveSearch
           SortedInsensitiveHolder sortedMemory sortedColors (mkEnum 2 "Green")).
  - live_array.
  - apply (bool_decide_unpack _). vm_compute. exact I.
  - apply (bool_decide_unpack _). vm_compute. exact I.
  - exact sortedColors_ascending.
  - right. left.
Defined.

(** * Unknown fallback *)

(** Claim C4 (found to fail on the code).  The query 0 equals no value of
    the sorted table [(1,"Red"); (2,"Green"); (3,"Blue")] and the default
    unknown policy is bound, yet with the sorted strategy [fromValue 0]
    does not return the sentinel: the search runs off the array after the
    [size_t] underflow of [right]. *)
Theorem fromValue_sorted_unknown_below_first :
  (forall x, x ∈ sortedColors -> value x <> 0) /\
  sorted_ascending sortedColors /\
  bound_to SortedHolder3 sortedMemory sortedColors /\
  fromValue SortedHolder3 0 sortedMemory
    = (Fault (OutOfBounds (2 ^ 63 - 1)), sortedMemory).
Proof.
  split; [|split; [|split]].
  - intros x Hx. unfold sortedColors in Hx.
    repeat (apply elem_of_cons in Hx as [->|Hx]; [simpl; lia|]).
    by apply elem_of_nil in Hx.
  - exact sortedColors_ascending.
  - live_array.
  - vm_compute. reflexivity.
Qed.

Section UnknownFallbackHolds.
Context {T : Type} `{LawfulValue T}.
Context {N : nat}.

(** Where the claim does hold: the linear value strategy, ... *)
Lemma fromValue_linear_unknown {SSP : StringSearchPolicy T}
    (h : EnumHolder N Linear SSP Unknown) (m : Memory T)
    (entries : list (Enum T)) (v : T) :
  m !! m_entries h = Some entries ->
  (forall x, x ∈ entries -> value x <> v) ->
  fromValue h v m = (Ok default_unknown_enum, m).
Proof.
  intros Hm Hno. rewrite (fromValue_linear_total h m entries v Hm).
  by rewrite linear_scan_absent.
Qed.

(** ... the sorted strategy for a query above the first entry, ... *)
Lemma fromValue_sorted_unknown_above {SSP : StringSearchPolicy T}
    (h : EnumHolder N Sorted SSP Unknown) (m : Memory T)
    (entries : list (Enum T)) (v : T) (e0 : Enum T) :
  bound_to h m entries ->
  (forall x, x ∈ entries -> value x <> v) ->
  entries !! 0%nat = Some e0 -> vlt (value e0) v = true ->
  fromValue h v m = (Ok default_unknown_enum, m).
Proof.
  intros (Hm & Hlen & Hmax) Hno He0 Hlt. rewrite (fromValue_run h m entries v Hm).
  change (search_by_value Sorted N v entries)
    with (policy.SortedSearchPolicy.search N v entries).
  rewrite (sorted_search_absent_above N v entries e0); [|done|done| |done|done].
  - unfold or_unknown. by rewrite Enum_eq_default.
  - intros x Hx. apply veq_false. by apply Hno.
Qed.

(** ... and both name strategies. *)
Lemma fromString_unknown {ESP : EnumSearchPolicy T} (L : Locale)
    (ns : name_strategy)
    (h : EnumHolder N ESP (name_policy L ns) Unknown) (m : Memory T)
    (entries : list (Enum T)) (n : string) :
  m !! m_entries h = Some entries ->
  (forall x, x ∈ entries -> ~ same_name L ns n (name x)) ->
  fromString h n m = (Ok default_unknown_enum, m).
Proof.
  intros Hm Hno. rewrite (fromString_run h m entries n Hm).
  change (handle_name Unknown N n entries)
    with (Ok (default_unknown_enum (T:=T))).
  assert (search_by_name (name_policy L ns) N n entries
          = Ok default_unknown_enum) as ->.
  { destruct ns; simpl in *.
    - unfold policy.CaseSensitiveStringSearchPolicy.search. f_equal.
      apply sensitive_scan_absent. intros x Hx Heq. by apply (Hno x).
    - by apply insensitive_scan_absent. }
  by rewrite or_unknown_found.
Qed.
End UnknownFallbackHolds.

(** * The scenario of the test suite *)

(** Claim C5.  On the table [(1,"Red"); (2,"Green"); (3,"Blue");
    (0,"Unknown")] with linear value search, case-sensitive name search
    and the default unknown policy: [fromValue 2] is [(2,"Green")],
    [fromValue 9] is the sentinel (value 0, empty name), [fromString "Blue"] is
    [(3,"Blue")], [fromString "blue"] is the sentinel, and [allValues]
    has four entries. *)
Theorem color_table_scenario :
  fromValue ColorEnumHolder 2 colorMemory = (Ok (mkEnum 2 "Green"), colorMemory) /\
  fromValue ColorEnumHolder 9 colorMemory = (Ok (mkEnum 0 EmptyString), colorMemory) /\
  fromString ColorEnumHolder "Blue" colorMemory = (Ok (mkEnum 3 "Blue"), colorMemory) /\
  fromString ColorEnumHolder "blue" colorMemory = (Ok (mkEnum 0 EmptyString), colorMemory) /\
  exists all : list (Enum Z),
    allValues ColorEnumHolder colorMemory = (Ok all, colorMemory) /\
    length all = 4%nat.
Proof.
  split; [|split; [|split; [|split]]]; try (vm_compute; reflexivity).
  exists colorEntries. split; vm_compute; reflexivity.
Qed.

(** * Case-insensitive resolution *)

(** Claim C6, as stated, fails: the comparison follows the current
    locale, not a fixed ASCII fold.  Under an ISO 8859-1 locale the small
    and the capital E with an acute accent (bytes 233 and 201) have the
    same length and are not equal under the ASCII case fold, and yet the
    code matches them and [fromString] resolves the one to the entry
    named by the other. *)
Lemma case_insensitive_match_follows_locale :
  String.length smallEacute = String.length capitalEacute /\
  ~ fold_equal smallEacute capitalEacute /\
  policy.CaseInsensitiveStringSearchPolicy.names_match Latin1_locale
    smallEacute capitalEacute = Ok true /\
  bound_to (AccentHolder Latin1_locale) accentMemory accentEntries /\
  fromString (AccentHolder Latin1_locale) smallEacute accentMemory
    = (Ok (mkEnum 1 capitalEacute), accentMemory).
Proof.
  split; [reflexivity|]. split; [|split; [|split]].
  - intros [_ Hpt].
    specialize (Hpt 0%nat "233"%char "201"%char eq_refl eq_refl).
    vm_compute in Hpt. discriminate.
  - vm_compute. reflexivity.
  - live_array.
  - vm_compute. reflexivity.
Qed.

(** Claim C6 (amended).  Under the case-insensitive strategy a query
    matches an entry's name exactly when the two have the same length and
    agree character by character under [std::tolower] of the current
    locale (and the comparison never reads past either name); in the "C"
    locale this is agreement under the ASCII case fold.  The search
    returns the first entry of the array that matches.  In every locale
    that gives each ASCII capital the lower case of its small letter,
    ["red"], ["RED"] and ["ReD"] resolve to the same outcome as ["Red"]
    on every table. *)
Theorem case_insensitive_resolution {T : Type} `{ValueType T} :
  (forall (L : Locale) (name0 entry_name : string),
     (locale_equal L name0 entry_name ->
      policy.CaseInsensitiveStringSearchPolicy.names_match L name0 entry_name
        = Ok true) /\
     (~ locale_equal L name0 entry_name ->
      policy.CaseInsensitiveStringSearchPolicy.names_match L name0 entry_name
        = Ok false)) /\
  (forall a b : string, locale_equal C_locale a b <-> fold_equal a b) /\
  (forall (L : Locale) (N : nat) (entries : list (Enum T)) (name0 : string)
          (i : nat) (e : Enum T),
     entries !! i = Some e ->
     locale_equal L name0 (name e) ->
     (forall k x, (k < i)%nat -> entries !! k = Some x ->
                  ~ locale_equal L name0 (name x)) ->
     policy.CaseInsensitiveStringSearchPolicy.search L N name0 entries = Ok e) /\
  (forall (L : Locale) (N : nat) (ESP : EnumSearchPolicy T)
          (h : EnumHolder N ESP (CaseInsensitive L) Unknown) (m : Memory T)
          (q : string),
     folds_ascii_letters L ->
     q = "red" \/ q = "RED" \/ q = "ReD" ->
     fromString h q m = fromString h "Red" m).
Proof.
  split; [|split; [|split]].
  - intros L name0 entry_name. split; intros Hm.
    + by apply names_match_true.
    + by apply names_match_false.
  - apply C_locale_equal_iff.
  - intros L N entries name0 i e Hi Hm Hfirst.
    by apply (insensitive_scan_first L name0 entries i e).
  - intros L N ESP h m q HL Hq.
    assert (folded_name L q = folded_name L "Red") as Hfold.
    { pose proof (HL 82 ltac:(lia)) as HR.
      pose proof (HL 69 ltac:(lia)) as HE.
      pose proof (HL 68 ltac:(lia)) as HD.
      change (82 + 32) with 114 in HR. change (69 + 32) with 101 in HE.
      change (68 + 32) with 100 in HD.
      change (folded_name L "Red")
        with [lc_tolower L 82; lc_tolower L 101; lc_tolower L 100].
      destruct Hq as [->|[->| ->]].
      - change (folded_name L "red")
          with [lc_tolower L 114; lc_tolower L 101; lc_tolower L 100].
        by rewrite HR.
      - change (folded_name L "RED")
          with [lc_tolower L 82; lc_tolower L 69; lc_tolower L 68].
        by rewrite HE, HD.
      - change (folded_name L "ReD")
          with [lc_tolower L 82; lc_tolower L 101; lc_tolower L 68].
        by rewrite HD. }
    destruct (m !! m_entries h) as [entries|] eqn:Hm.
    + rewrite !(fromString_run h m entries _ Hm).
      change (search_by_name (CaseInsensitive L) N q entries)
        with (policy.CaseInsensitiveStringSearchPolicy.scan L q entries).
      change (search_by_name (CaseInsensitive L) N "Red" entries)
        with (policy.CaseInsensitiveStringSearchPolicy.scan L "Red" entries).
      by rewrite (insensitive_scan_same_fold L q "Red" entries Hfold).
    + by rewrite !fromString_dangling.
Qed.

Lemma Latin1_folds_ascii_letters : folds_ascii_letters Latin1_locale.
Proof.
  intros c Hc. simpl.
  rewrite (proj2 (Z.leb_le 65 c)), (proj2 (Z.leb_le c 90)) by lia.
  rewrite (proj2 (Z.leb_gt (c + 32) 90)), (proj2 (Z.leb_gt 192 (c + 32))) by lia.
  rewrite andb_false_r. reflexivity.
Defined.

Lemma C_folds_ascii_letters : folds_ascii_letters C_locale.
Proof.
  intros c Hc. simpl.
  rewrite (proj2 (Z.leb_le 65 c)), (proj2 (Z.leb_le c 90)) by lia.
  rewrite (proj2 (Z.leb_gt (c + 32) 90)) by lia.
  rewrite andb_false_r. reflexivity.
Defined.

Lemma case_insensitive_resolution_witness :
  policy.CaseInsensitiveStringSearchPolicy.names_match Latin1_locale
    smallEacute capitalEacute = Ok true /\
  policy.CaseInsensitiveStringSearchPolicy.names_match C_locale
    smallEacute capitalEacute = Ok false /\
  (locale_equal C_locale "GREEN" "Green" <-> fold_equal "GREEN" "Green") /\
  policy.CaseInsensitiveStringSearchPolicy.search C_locale 4 "gReEn" colorEntries
    = Ok (mkEnum 2 "Green") /\
  fromString (AccentHolder Latin1_locale) "ReD" accentMemory
    = fromString (AccentHolder Latin1_locale) "Red" accentMemory /\
  fromString InsensitiveHolder "RED" colorMemory
    = fromString InsensitiveHolder "Red" colorMemory.
Proof.
  pose proof (case_insensitive_resolution (T:=Z)) as (Hmatch & HC & Hfirst & Hsame).
  split; [|split; [|split; [|split; [|split]]]].
  - apply (Hmatch Latin1_locale smallEacute capitalEacute).
    apply folded_name_eq_iff. reflexivity.
  - apply (Hmatch C_locale smallEacute capitalEacute).
    intros Heq. apply folded_name_eq_iff in Heq. vm_compute in Heq. discriminate.
  - apply (HC "GREEN" "Green").
  - apply (Hfirst C_locale 4%nat colorEntries "gReEn" 1%nat (mkEnum 2 "Green")).
    + reflexivity.
    + apply folded_name_eq_iff. reflexivity.
    + intros k x Hk Hx Hm. assert (k = 0%nat) as -> by lia.
      injection Hx as <-. destruct Hm as [Hlen _]. vm_compute in Hlen. discriminate.
  - apply (Hsame Latin1_locale 1%nat Linear (AccentHolder Latin1_locale)
             accentMemory "ReD").
    + exact Latin1_folds_ascii_letters.
    + right. right. reflexivity.
  - apply (Hsame C_locale 4%nat Linear InsensitiveHolder colorMemory "RED").
    + exact C_folds_ascii_letters.
    + right. left. reflexivity.
Defined.

(** * First match under the linear strategy *)

(** Claim C7.  Under the linear value strategy, when the array holds two
    entries [e1] (at index [i]) and [e2] (at a later index [j]) with the
    same value and different names, and no entry before [e1] has that
    value, [fromValue] on that value returns [e1]. *)
Theorem fromValue_linear_first_duplicate {T : Type} `{LawfulValue T}
    {N : nat} {SSP : StringSearchPolicy T}
    (h : EnumHolder N Linear SSP Unknown) (m : Memory T)
    (entries : list (Enum T)) (i j : nat) (e1 e2 : Enum T) :
  bound_to h m entries ->
  (i < j)%nat ->
  entries !! i = Some e1 -> entries !! j = Some e2 ->
  value e1 = value e2 -> name e1 <> name e2 ->
  (forall k x, (k < i)%nat -> entries !! k = Some x -> value x <> value e1) ->
  fromValue h (value e2) m = (Ok e1, m).
Proof.
  intros [Hm _] Hij Hi Hj Hv Hn Hfirst.
  rewrite (fromValue_linear_total h m entries _ Hm). f_equal. f_equal.
  apply (linear_scan_first _ _ i); [done|done|].
  intros k x Hk Hx. rewrite <- Hv. by apply (Hfirst k).
Qed.

Lemma fromValue_linear_first_duplicate_witness :
  fromValue DuplicateHolder 2 duplicateMemory = (Ok (mkEnum 2 "Two"), duplicateMemory).
Proof.
  apply (fromValue_linear_first_duplicate DuplicateHolder duplicateMemory
           duplicateEntries 1%nat 3%nat (mkEnum 2 "Two") (mkEnum 2 "Deux")).
  - live_array.
  - lia.
  - reflexivity.
  - reflexivity.
  - reflexivity.
  - simpl. discriminate.
  - intros k x Hk Hx. assert (k = 0%nat) as -> by lia.
    injection Hx as <-. simpl. lia.
Defined.

(** * Enumeration, purity and the sentinel *)

(** Claim C8.  For a holder bound to a live array of [N] entries,
    [allValues] returns a sequence of length [N] whose [i]-th element is
    the [i]-th element of the backing array for every [i], and the memory
    after the call, the backing array included, is the memory before
    it. *)
Theorem allValues_is_backing_array {T : Type} `{ValueType T} {N : nat}
    {ESP : EnumSearchPolicy T} {SSP : StringSearchPolicy T} {UP : UnknownHandler T}
    (h : EnumHolder N ESP SSP UP) (m : Memory T) (entries : list (Enum T)) :
  bound_to h m entries ->
  exists (all : list (Enum T)) (m' : Memory T),
    allValues h m = (Ok all, m') /\
    length all = N /\
    (forall i : nat, all !! i = entries !! i) /\
    m' = m /\ m' !! m_entries h = Some entries.
Proof.
  intros (Hm & Hlen & _). exists entries, m.
  rewrite (allValues_run h m entries Hm). done.
Qed.

Lemma allValues_is_backing_array_witness :
  exists (all : list (Enum Z)) (m' : Memory Z),
    allValues ColorEnumHolder colorMemory = (Ok all, m') /\
    length all = 4%nat /\
    (forall i : nat, all !! i = colorEntries !! i) /\
    m' = colorMemory /\ m' !! m_entries ColorEnumHolder = Some colorEntries.
Proof.
  apply (allValues_is_backing_array ColorEnumHolder colorMemory colorEntries).
  live_array.
Defined.





(** Claim C10.  For any value-search, name-search and unknown policy:
    whenever the bound search returns an entry equal to the
    default-constructed one, [fromValue] and [fromString] return what the
    unknown policy computes for the original query.  Hence under the
    linear strategy a table whose first entry for the query is a stored
    default entry and a table with no entry for the query give the same
    answer, the one of the unknown policy. *)
Theorem default_entry_is_treated_as_unknown {T : Type} `{LawfulValue T} {N : nat} :
  (forall (ESP : EnumSearchPolicy T) (SSP : StringSearchPolicy T) (UP : UnknownHandler T)
          (h : EnumHolder N ESP SSP UP) (m : Memory T) (entries : list (Enum T)),
     bound_to h m entries ->
     (forall v : T,
        search_by_value ESP N v entries = Ok default_unknown_enum ->
        fromValue h v m = (handle_value UP N v entries, m)) /\
     (forall n : string,
        search_by_name SSP N n entries = Ok default_unknown_enum ->
        fromString h n m = (handle_name UP N n entries, m))) /\
  (forall (SSP : StringSearchPolicy T) (UP : UnknownHandler T)
          (h : EnumHolder N Linear SSP UP) (m : Memory T) (entries : list (Enum T))
          (v : T),
     bound_to h m entries ->
     ((exists i : nat,
         entries !! i = Some default_unknown_enum /\ v = vdefault /\
         forall k x, (k < i)%nat -> entries !! k = Some x -> value x <> v)
      \/ (forall x, x ∈ entries -> value x <> v)) ->
     fromValue h v m = (handle_value UP N v entries, m)).
Proof.
  assert (forall (ESP : EnumSearchPolicy T) (SSP : StringSearchPolicy T)
                 (UP : UnknownHandler T) (h : EnumHolder N ESP SSP UP)
                 (m : Memory T) (entries : list (Enum T)) (v : T),
            bound_to h m entries ->
            search_by_value ESP N v entries = Ok default_unknown_enum ->
            fromValue h v m = (handle_value UP N v entries, m)) as Hvalue.
  { intros ESP SSP UP h m entries v [Hm _] Hs.
    rewrite (fromValue_run h m entries v Hm), Hs.
    unfold or_unknown. by rewrite Enum_eq_default. }
  split.
  - intros ESP SSP UP h m entries Hb. split.
    + intros v. by apply Hvalue.
    + intros n Hs. destruct Hb as [Hm _].
      rewrite (fromString_run h m entries n Hm), Hs.
      unfold or_unknown. by rewrite Enum_eq_default.
  - intros SSP UP h m entries v Hb Hcase. apply Hvalue; [done|].
    change (search_by_value Linear N v entries)
      with (Ok (policy.LinearSearchPolicy.scan v entries)).
    f_equal. destruct Hcase as [(i & Hi & -> & Hfirst)|Hno].
    + by apply (linear_scan_first _ _ i).
    + by apply linear_scan_absent.
Qed.

Lemma default_entry_is_treated_as_unknown_witness :
  fromValue MarkerHolder 0 defaultEntryMemory = (Ok (mkEnum (-1) "?"), defaultEntryMemory) /\
  fromValue MarkerHolder 9 defaultEntryMemory = (Ok (mkEnum (-1) "?"), defaultEntryMemory) /\
  fromString MarkerHolder EmptyString defaultEntryMemory = (Ok (mkEnum (-1) "?"), defaultEntryMemory).
Proof.
  pose proof (default_entry_is_treated_as_unknown (T:=Z) (N:=3)) as [Hany Hlinear].
  split; [|split].
  - apply (Hlinear CaseSensitive MarkerUnknown MarkerHolder defaultEntryMemory
             withDefaultEntry 0).
    + live_array.
    + left. exists 1%nat. split; [reflexivity|]. split; [reflexivity|].
      intros k x Hk Hx. assert (k = 0%nat) as -> by lia.
      injection Hx as <-. simpl. lia.
  - apply (Hlinear CaseSensitive MarkerUnknown MarkerHolder defaultEntryMemory
             withDefaultEntry 9).
    + live_array.
    + right. intros x Hx. unfold withDefaultEntry in Hx.
      repeat (apply elem_of_cons in Hx as [->|Hx]; [simpl; lia|]).
      by apply elem_of_nil in Hx.
  - apply (Hany Linear CaseSensitive MarkerUnknown MarkerHolder defaultEntryMemory
             withDefaultEntry).
    + live_array.
    + reflexivity.
Defined.

(** * Further properties of the binary search *)

Local Close Scope string_scope.

Section SortedSearchOutcomes.
Context {T : Type} `{LawfulValue T}.

Import policy.SortedSearchPolicy.

Lemma at_index_elem (entries : list (Enum T)) (i : Z) (e : Enum T) :
  at_index entries i = Ok e -> e ∈ entries.
Proof.
  unfold at_index.
  destruct ((0 <=? i) && (i <? Z.of_nat (length entries))); [|done].
  destruct (entries !! Z.to_nat i) as [x|] eqn:Hx; [|done].
  intros [= <-]. by eapply list_elem_of_lookup_2.
Qed.

(** What the loop returns is the sentinel or a stored entry with the
    queried value, whatever the interval, the fuel and the order of the
    array. *)
Lemma loop_sound (v : T) (entries : list (Enum T)) (fuel : nat) :
  forall (left right : Z) (r : Enum T),
    loop fuel v entries left right = Ok r ->
    r = default_unknown_enum \/ (r ∈ entries /\ value r = v).
Proof.
  induction fuel as [|fuel IH]; intros left right r; [done|].
  rewrite loop_step.
  destruct (left <=? right); [|by intros [= <-]; left].
  destruct (at_index entries (midpoint left right)) as [e|f] eqn:He; [|done].
  destruct (veq (value e) v) eqn:Eeq.
  - intros [= <-]. right. split; [by eapply at_index_elem|by apply veq_spec].
  - destruct (vlt (value e) v); apply IH.
Qed.

(** With duplicates allowed: a stored value inside the interval is found. *)
Lemma loop_finds_value (v : T) (entries : list (Enum T)) :
  sorted_ascending entries ->
  Z.of_nat (length entries) <= SIZE_MAX ->
  forall (fuel : nat) (left right : Z),
    0 <= left -> right < Z.of_nat (length entries) ->
    (exists (k : nat) (e : Enum T),
        entries !! k = Some e /\ value e = v /\ left <= Z.of_nat k <= right) ->
    right - left + 1 <= Z.of_nat fuel ->
    exists e', loop fuel v entries left right = Ok e' /\ e' ∈ entries /\ value e' = v.
Proof.
  intros Hsorted Hmax fuel.
  induction fuel as [|fuel IH]; intros left right Hl Hr (k & e & Hk & Hv & Hin) Hfuel;
    [lia|].
  rewrite loop_step.
  replace (left <=? right) with true by (symmetry; apply Z.leb_le; lia).
  destruct (midpoint_in_range left right) as [Hmid Hbounds]; [lia|lia|].
  destruct (at_index_in_range entries (midpoint left right)) as (e' & He' & ->); [lia|].
  destruct (veq (value e') v) eqn:Eeq.
  { exists e'. split; [done|]. split; [by eapply list_elem_of_lookup_2|by apply veq_spec]. }
  assert (Z.to_nat (midpoint left right) <> k) as Hne.
  { intros Hidx. rewrite Hidx in He'. assert (e' = e) as -> by congruence.
    rewrite Hv, veq_refl in Eeq. done. }
  destruct (vlt (value e') v) eqn:Elt.
  - assert (midpoint left right < Z.of_nat k) as Hlt.
    { destruct (Z_lt_le_dec (midpoint left right) (Z.of_nat k)) as [|Hge]; [done|].
      rewrite <- Hv in Elt.
      rewrite (Hsorted k (Z.to_nat (midpoint left right)) e e') in Elt;
        [done|lia|done|done]. }
    unfold size_add. rewrite wrap_small by lia.
    apply IH; [lia|lia| |lia]. exists k, e. repeat split; [done|done|lia|lia].
  - assert (Z.of_nat k < midpoint left right) as Hgt.
    { destruct (Z_lt_le_dec (Z.of_nat k) (midpoint left right)) as [|Hge]; [done|].
      assert (vlt (value e) (value e') = false) as Hrev.
      { apply (Hsorted (Z.to_nat (midpoint left right)) k e' e); [lia|done|done]. }
      rewrite Hv in Hrev.
      pose proof (vlt_connex _ _ Elt Hrev) as Hsame.
      apply veq_spec in Hsame. congruence. }
    unfold size_sub. rewrite wrap_small by lia.
    apply IH; [lia|lia| |lia]. exists k, e. repeat split; [done|done|lia|lia].
Qed.

(** The only fault of the loop is the read at [2^63 - 1] that follows the
    underflow of [right]. *)
Lemma loop_faults_only_by_underflow (v : T) (entries : list (Enum T)) :
  Z.of_nat (length entries) <= 2 ^ 63 - 1 ->
  forall (fuel : nat) (left right : Z) (f : fault),
    0 <= left <= right + 1 -> 0 <= right < Z.of_nat (length entries) ->
    right - left + 3 <= Z.of_nat fuel ->
    loop fuel v entries left right = Fault f ->
    f = OutOfBounds (2 ^ 63 - 1).
Proof.
  intros Hmax fuel.
  induction fuel as [|fuel IH]; intros left right f Hl Hr Hfuel; [lia|].
  rewrite loop_step.
  destruct (Z.leb_spec left right) as [Hle|Hgt]; [|done].
  destruct (midpoint_in_range left right) as [Hmid Hbounds];
    [lia|unfold SIZE_MAX; lia|].
  destruct (at_index_in_range entries (midpoint left right)) as (e' & He' & ->); [lia|].
  destruct (veq (value e') v); [done|].
  destruct (vlt (value e') v).
  - unfold size_add. rewrite wrap_small by (unfold SIZE_MAX; lia). apply IH; lia.
  - destruct (Z.eq_dec (midpoint left right) 0) as [Hz|Hnz].
    + assert (left = 0) as -> by lia.
      rewrite Hz. change (size_sub 0 1) with SIZE_MAX.
      destruct fuel as [|fuel]; [lia|].
      rewrite loop_step. change (0 <=? SIZE_MAX) with true. cbv iota.
      rewrite midpoint_after_underflow.
      rewrite at_index_past_end by lia. by intros [= <-].
    + unfold size_sub. rewrite wrap_small by (unfold SIZE_MAX; lia).
      apply IH; lia.
Qed.

Lemma sorted_search_faults_only_by_underflow (N : nat) (v : T)
    (entries : list (Enum T)) (f : fault) :
  length entries = N ->
  Z.of_nat N <= 2 ^ 63 - 1 ->
  search N v entries = Fault f -> f = OutOfBounds (2 ^ 63 - 1).
Proof.
  intros Hlen Hmax. unfold search.
  destruct N as [|N].
  - destruct entries; [|done]. by intros [= <-].
  - unfold size_sub. rewrite wrap_small by (unfold SIZE_MAX; lia).
    apply loop_faults_only_by_underflow; lia.
Qed.
End SortedSearchOutcomes.

Section SortedSearchSafety.
Context {T : Type} `{LawfulValue T}.

Import policy.SortedSearchPolicy.

Lemma ascendingb_sound (entries : list (Enum T)) :
  ascendingb entries = true -> sorted_ascending entries.
Proof.
  induction entries as [|a rest IH]; intros Hb i j x y Hij Hi Hj.
  - by rewrite lookup_nil in Hi.
  - simpl in Hb. apply andb_true_iff in Hb as [Hall Hrest].
    destruct j as [|j]; [lia|]. simpl in Hj.
    destruct i as [|i].
    + simpl in Hi. injection Hi as <-.
      rewrite forallb_forall in Hall.
      apply negb_true_iff, Hall, list_elem_of_In.
      by eapply list_elem_of_lookup_2.
    + simpl in Hi. apply (IH Hrest i j); [lia|done|done].
Qed.

(** In a sorted array a query below the first entry is below them all. *)
Lemma below_first_below_all (v : T) (entries : list (Enum T)) (e0 : Enum T) :
  sorted_ascending entries ->
  entries !! 0%nat = Some e0 -> vlt v (value e0) = true ->
  forall x, x ∈ entries -> veq (value x) v = false /\ vlt (value x) v = false.
Proof.
  intros Hsorted He0 Hlt x Hx.
  apply list_elem_of_lookup in Hx as [j Hj].
  assert (vlt (value x) (value e0) = false) as Hge.
  { destruct j as [|j].
    - assert (x = e0) as -> by congruence. apply vlt_irrefl.
    - apply (Hsorted 0%nat (S j) e0 x); [lia|done|done]. }
  split.
  - apply veq_false. intros Heq. rewrite Heq in Hge. congruence.
  - destruct (vlt (value x) v) eqn:E; [|done].
    rewrite (vlt_trans _ _ _ E Hlt) in Hge. done.
Qed.

(** A query that is not below the first entry never takes [right] below
    index 1 while looking at index 0, so every read stays in the array. *)
Lemma loop_no_underflow (v : T) (entries : list (Enum T)) (e0 : Enum T) :
  entries !! 0%nat = Some e0 -> vlt v (value e0) = false ->
  Z.of_nat (length entries) <= SIZE_MAX ->
  forall (fuel : nat) (left right : Z),
    0 <= left <= right + 1 -> 0 <= right < Z.of_nat (length entries) ->
    right - left + 2 <= Z.of_nat fuel ->
    exists r, loop fuel v entries left right = Ok r.
Proof.
  intros He0 Hge Hmax fuel.
  induction fuel as [|fuel IH]; intros left right Hl Hr Hfuel; [lia|].
  rewrite loop_step.
  destruct (Z.leb_spec left right) as [Hle|Hgt]; [|by eexists].
  destruct (midpoint_in_range left right) as [Hmid Hbounds]; [lia|lia|].
  destruct (at_index_in_range entries (midpoint left right)) as (e' & He' & ->); [lia|].
  destruct (veq (value e') v) eqn:Eeq; [by eexists|].
  destruct (vlt (value e') v) eqn:Elt.
  - unfold size_add. rewrite wrap_small by lia. apply IH; lia.
  - assert (midpoint left right <> 0) as Hnz.
    { intros Hz. rewrite Hz in He'. change (Z.to_nat 0) with 0%nat in He'.
      assert (e' = e0) as -> by congruence.
      pose proof (vlt_connex _ _ Elt Hge) as Hsame.
      apply veq_spec in Hsame. congruence. }
    unfold size_sub. rewrite wrap_small by lia. apply IH; lia.
Qed.
End SortedSearchSafety.

Section ScanCases.
Context {T : Type} `{LawfulValue T}.

(** Each scan returns the first entry that matches, or the sentinel when
    none does. *)
Lemma linear_scan_cases (v : T) (entries : list (Enum T)) :
  first_with (fun e => value e = v) entries (policy.LinearSearchPolicy.scan v entries) \/
  (none_with (fun e => value e = v) entries /\
   policy.LinearSearchPolicy.scan v entries = default_unknown_enum).
Proof.
  induction entries as [|a rest IH]; simpl.
  - right. split; [|done]. intros x Hx. by apply elem_of_nil in Hx.
  - destruct (veq (value a) v) eqn:Ea.
    + left. exists 0%nat. split; [done|]. split; [by apply veq_spec|].
      intros k x Hk. lia.
    + apply veq_false in Ea. destruct IH as [(i & Hi & Hv & Hfirst)|[Hno Hd]].
      * left. exists (S i). split; [done|]. split; [done|].
        intros [|k] x Hk Hx; simpl in Hx; [congruence|].
        apply (Hfirst k); [lia|done].
      * right. split; [|done]. intros x Hx.
        apply elem_of_cons in Hx as [->|Hx]; [done|by apply Hno].
Qed.

Lemma sensitive_scan_cases (n : string) (entries : list (Enum T)) :
  first_with (fun e => name e = n) entries
    (policy.CaseSensitiveStringSearchPolicy.scan n entries) \/
  (none_with (fun e => name e = n) entries /\
   policy.CaseSensitiveStringSearchPolicy.scan n entries = default_unknown_enum).
Proof.
  induction entries as [|a rest IH]; simpl.
  - right. split; [|done]. intros x Hx. by apply elem_of_nil in Hx.
  - destruct (String.eqb_spec (name a) n) as [Ea|Ea].
    + left. exists 0%nat. split; [done|]. split; [done|].
      intros k x Hk. lia.
    + destruct IH as [(i & Hi & Hv & Hfirst)|[Hno Hd]].
      * left. exists (S i). split; [done|]. split; [done|].
        intros [|k] x Hk Hx; simpl in Hx; [congruence|].
        apply (Hfirst k); [lia|done].
      * right. split; [|done]. intros x Hx.
        apply elem_of_cons in Hx as [->|Hx]; [done|by apply Hno].
Qed.

Lemma insensitive_scan_cases (L : Locale) (n : string) (entries : list (Enum T)) :
  (exists e, policy.CaseInsensitiveStringSearchPolicy.scan L n entries = Ok e /\
             first_with (fun x => locale_equal L n (name x)) entries e) \/
  (none_with (fun x => locale_equal L n (name x)) entries /\
   policy.CaseInsensitiveStringSearchPolicy.scan L n entries
     = Ok default_unknown_enum).
Proof.
  induction entries as [|a rest IH].
  - right. split; [|done]. intros x Hx. by apply elem_of_nil in Hx.
  - rewrite insensitive_scan_unfold.
    destruct (decide (folded_name L (name a) = folded_name L n)) as [Ea|Ea].
    + rewrite bool_decide_eq_true_2 by done.
      left. exists a. split; [done|]. exists 0%nat. split; [done|].
      split; [by apply folded_name_eq_iff|]. intros k x Hk. lia.
    + rewrite bool_decide_eq_false_2 by done.
      assert (~ locale_equal L n (name a)) as Hna.
      { intros Hf. apply folded_name_eq_iff in Hf. congruence. }
      destruct IH as [(e & He & i & Hi & Hv & Hfirst)|[Hno Hd]].
      * left. exists e. split; [done|]. exists (S i). split; [done|]. split; [done|].
        intros [|k] x Hk Hx; simpl in Hx; [congruence|].
        apply (Hfirst k); [lia|done].
      * right. split; [|done]. intros x Hx.
        apply elem_of_cons in Hx as [->|Hx]; [done|by apply Hno].
Qed.
End ScanCases.

Section SortedSearchProperties.
Context {T : Type} `{LawfulValue T}.

Import policy.SortedSearchPolicy.

(** Property X1.  On an array sorted ascending by value, duplicates
    allowed, the binary search for a stored value returns a stored entry
    with that value; when the values are pairwise distinct it is the
    entry that stores the value. *)
Theorem sorted_search_finds_stored_value (N : nat) (v : T)
    (entries : list (Enum T)) :
  length entries = N ->
  Z.of_nat N <= SIZE_MAX ->
  sorted_ascending entries ->
  (exists x, x ∈ entries /\ value x = v) ->
  exists e, search N v entries = Ok e /\ e ∈ entries /\ value e = v /\
            (NoDup (value <$> entries) ->
             forall x, x ∈ entries -> value x = v -> e = x).
Proof.
  intros Hlen Hmax Hsorted (x & Hx & Hv).
  apply list_elem_of_lookup in Hx as [k Hk].
  pose proof (lookup_lt_Some _ _ _ Hk) as Hlt.
  destruct (loop_finds_value v entries Hsorted ltac:(lia) (N + 2)
              0 (Z.of_nat N - 1)) as (e & He & Hin & Hev); [lia|lia| |lia|].
  { exists k, x. repeat split; [done|done|lia|lia]. }
  exists e. unfold search, size_sub. rewrite wrap_small by lia.
  split; [done|]. split; [done|]. split; [done|].
  intros Hnd y Hy Hyv.
  apply list_elem_of_lookup in Hin as [i Hi].
  apply list_elem_of_lookup in Hy as [j Hj].
  assert (j = i) as -> by (eapply (NoDup_keys_first value); [done..|congruence]).
  congruence.
Qed.

(** Property X2.  For any array, sorted or not, whose first entry is
    below the query and in which the query is not stored, the binary
    search stays inside the array and returns the sentinel. *)
Theorem sorted_search_sentinel_above_first (N : nat) (v : T)
    (entries : list (Enum T)) (e0 : Enum T) :
  length entries = N ->
  Z.of_nat N <= SIZE_MAX ->
  entries !! 0%nat = Some e0 -> vlt (value e0) v = true ->
  (forall x, x ∈ entries -> value x <> v) ->
  search N v entries = Ok default_unknown_enum.
Proof.
  intros Hlen Hmax He0 Hlt Hno.
  apply (sorted_search_absent_above N v entries e0); [done|done| |done|done].
  intros x Hx. apply veq_false. by apply Hno.
Qed.

(** Property X3.  When no entry is equal to or below the query, the
    binary search does not return: on an array with entries it walks
    [right] down to index 0, computes [0 - 1] in [size_t] and reads index
    [2^63 - 1], past the end of the array; on the array of size 0 the
    same read follows from [N - 1]. *)
Theorem sorted_search_out_of_bounds_below_all (N : nat) (v : T)
    (entries : list (Enum T)) :
  length entries = N ->
  Z.of_nat N <= 2 ^ 63 - 1 ->
  (forall x, x ∈ entries -> value x <> v /\ vlt (value x) v = false) ->
  search N v entries = Fault (OutOfBounds (2 ^ 63 - 1)).
Proof.
  intros Hlen Hmax Habove. apply sorted_search_below; [done|done|].
  intros x Hx. destruct (Habove x Hx) as [Hne Hge]. split; [|done].
  by apply veq_false.
Qed.

(** Property X4.  On any array of fewer than [2^63] entries, sorted or
    not, the outcome of the binary search is always among these: the
    sentinel, a stored entry whose value is the query, or the read of
    index [2^63 - 1] out of bounds.  The first two coincide when the
    entry found is itself the default entry.  The search never returns
    an entry with another value and never loops forever. *)
Theorem sorted_search_outcomes (N : nat) (v : T) (entries : list (Enum T)) :
  length entries = N ->
  Z.of_nat N <= 2 ^ 63 - 1 ->
  search N v entries = Ok default_unknown_enum \/
  (exists e, search N v entries = Ok e /\ e ∈ entries /\ value e = v) \/
  search N v entries = Fault (OutOfBounds (2 ^ 63 - 1)).
Proof.
  intros Hlen Hmax.
  destruct (search N v entries) as [r|f] eqn:Hs.
  - apply loop_sound in Hs as [->|[Hin Hv]]; [by left|].
    right. left. by exists r.
  - right. right. f_equal.
    by apply (sorted_search_faults_only_by_underflow N v entries).
Qed.

(** Property X5.  On a sorted array with pairwise distinct values the two
    value strategies agree: whatever entry the binary search returns, the
    linear search returns the same one. *)
Theorem sorted_search_agrees_with_linear (N : nat) (v : T)
    (entries : list (Enum T)) (r : Enum T) :
  length entries = N ->
  Z.of_nat N <= SIZE_MAX ->
  sorted_ascending entries ->
  NoDup (value <$> entries) ->
  search N v entries = Ok r ->
  policy.LinearSearchPolicy.search N v entries = Ok r.
Proof.
  intros Hlen Hmax Hsorted Hnd Hs.
  unfold policy.LinearSearchPolicy.search. f_equal.
  destruct (linear_scan_cases v entries) as [(i & Hi & Hv & _)|[Hno ->]].
  - rewrite <- Hv, (sorted_search_finds N entries i _ Hlen Hmax Hsorted Hnd Hi) in Hs.
    congruence.
  - apply loop_sound in Hs as [->|[Hin Hv]]; [done|].
    by destruct (Hno r Hin).
Qed.

(** Property X6.  On a sorted array with at least one and fewer than
    [2^63] entries the binary search reads out of bounds exactly when the
    query is below the first entry; for every other query it returns an
    entry. *)
Theorem sorted_search_safe_unless_below_first (N : nat) (v : T)
    (entries : list (Enum T)) (e0 : Enum T) :
  length entries = N ->
  Z.of_nat N <= 2 ^ 63 - 1 ->
  sorted_ascending entries ->
  entries !! 0%nat = Some e0 ->
  (vlt v (value e0) = true ->
   search N v entries = Fault (OutOfBounds (2 ^ 63 - 1))) /\
  (vlt v (value e0) = false -> exists r, search N v entries = Ok r).
Proof.
  intros Hlen Hmax Hsorted He0.
  pose proof (lookup_lt_Some _ _ _ He0) as Hpos.
  split; intros Hcmp.
  - apply sorted_search_below; [done|done|].
    by apply (below_first_below_all v entries e0).
  - unfold search, size_sub. rewrite wrap_small by (unfold SIZE_MAX; lia).
    apply (loop_no_underflow v entries e0); [done|done| | | |];
      unfold SIZE_MAX; lia.
Qed.
End SortedSearchProperties.

(** Proves that no entry of a concrete table has a given value. *)
Ltac no_such_entry Hx :=
  repeat (apply elem_of_cons in Hx as [->|Hx]; [simpl; try lia; try done|]);
  try (by apply elem_of_nil in Hx).

Lemma sorted_search_finds_stored_value_witness :
  exists e, policy.SortedSearchPolicy.search 4 2 sortedTwins = Ok e /\
            e ∈ sortedTwins /\ value e = 2 /\
            (NoDup (value <$> sortedTwins) ->
             forall x, x ∈ sortedTwins -> value x = 2 -> e = x).
Proof.
  apply (sorted_search_finds_stored_value 4 2 sortedTwins).
  - reflexivity.
  - vm_compute. discriminate.
  - apply ascendingb_sound. reflexivity.
  - exists (mkEnum 2 "Deux"%string). split; [|reflexivity]. right. right. left.
Defined.

Lemma sorted_search_sentinel_above_first_witness :
  policy.SortedSearchPolicy.search 3 9 shuffledColors = Ok default_unknown_enum.
Proof.
  apply (sorted_search_sentinel_above_first 3 9 shuffledColors (mkEnum 2 "Green"%string)).
  - reflexivity.
  - vm_compute. discriminate.
  - reflexivity.
  - reflexivity.
  - intros x Hx. unfold shuffledColors in Hx. no_such_entry Hx.
Defined.

Lemma sorted_search_out_of_bounds_below_all_witness :
  policy.SortedSearchPolicy.search 3 0 sortedColors
    = Fault (OutOfBounds (2 ^ 63 - 1)) /\
  policy.SortedSearchPolicy.search 0 7 ([] : list (Enum Z))
    = Fault (OutOfBounds (2 ^ 63 - 1)).
Proof.
  split.
  - apply (sorted_search_out_of_bounds_below_all 3 0 sortedColors).
    + reflexivity.
    + vm_compute. discriminate.
    + intros x Hx. unfold sortedColors in Hx.
      repeat (apply elem_of_cons in Hx as [->|Hx];
              [split; [simpl; lia|reflexivity]|]).
      by apply elem_of_nil in Hx.
  - apply (sorted_search_out_of_bounds_below_all 0 7 ([] : list (Enum Z))).
    + reflexivity.
    + vm_compute. discriminate.
    + intros x Hx. by apply elem_of_nil in Hx.
Defined.

Lemma sorted_search_outcomes_witness :
  policy.SortedSearchPolicy.search 3 1 shuffledColors = Ok default_unknown_enum \/
  (exists e, policy.SortedSearchPolicy.search 3 1 shuffledColors = Ok e /\
             e ∈ shuffledColors /\ value e = 1) \/
  policy.SortedSearchPolicy.search 3 1 shuffledColors = Fault (OutOfBounds (2 ^ 63 - 1)).
Proof.
  apply (sorted_search_outcomes 3 1 shuffledColors).
  - reflexivity.
  - vm_compute. discriminate.
Defined.

Lemma sorted_search_agrees_with_linear_witness :
  policy.LinearSearchPolicy.search 3 3 sortedColors = Ok (mkEnum 3 "Blue"%string).
Proof.
  apply (sorted_search_agrees_with_linear 3 3 sortedColors (mkEnum 3 "Blue"%string)).
  - reflexivity.
  - vm_compute. discriminate.
  - apply ascendingb_sound. reflexivity.
  - apply (bool_decide_unpack _). vm_compute. exact I.
  - vm_compute. reflexivity.
Defined.

Lemma sorted_search_safe_unless_below_first_witness :
  policy.SortedSearchPolicy.search 3 0 sortedColors
    = Fault (OutOfBounds (2 ^ 63 - 1)) /\
  exists r, policy.SortedSearchPolicy.search 3 4 sortedColors = Ok r.
Proof.
  split.
  - apply (sorted_search_safe_unless_below_first 3 0 sortedColors
             (mkEnum 1 "Red"%string)).
    + reflexivity.
    + vm_compute. discriminate.
    + apply ascendingb_sound. reflexivity.
    + reflexivity.
    + reflexivity.
  - apply (sorted_search_safe_unless_below_first 3 4 sortedColors
             (mkEnum 1 "Red"%string)).
    + reflexivity.
    + vm_compute. discriminate.
    + apply ascendingb_sound. reflexivity.
    + reflexivity.
    + reflexivity.
Defined.

(** * Further properties of the holder *)

Section HolderProperties.
Context {T : Type} `{LawfulValue T}.
Context {N : nat}.

(** Property X7.  With the linear value strategy and the provided unknown
    policy [fromValue] needs nothing of the array: it always returns an
    entry and leaves the memory alone, and that entry is the first one
    with the queried value, or the sentinel when no entry has it. *)
Theorem fromValue_linear_first_or_sentinel {SSP : StringSearchPolicy T}
    (h : EnumHolder N Linear SSP Unknown) (m : Memory T)
    (entries : list (Enum T)) (v : T) :
  bound_to h m entries ->
  exists r, fromValue h v m = (Ok r, m) /\
    (first_with (fun e => value e = v) entries r \/
     (none_with (fun e => value e = v) entries /\ r = default_unknown_enum)).
Proof.
  intros (Hm & _ & _).
  exists (policy.LinearSearchPolicy.scan v entries).
  split; [by apply fromValue_linear_total|].
  apply linear_scan_cases.
Qed.

(** Property X8.  With either name strategy and the provided unknown
    policy [fromString] always returns an entry, without reading past
    the end of a name, and leaves the memory alone; the entry is the
    first one whose name is the query for that strategy (the same
    characters, or characters that [std::tolower] of the current locale
    maps alike), or the sentinel when there is none. *)
Theorem fromString_first_or_sentinel {ESP : EnumSearchPolicy T}
    (L : Locale) (ns : name_strategy)
    (h : EnumHolder N ESP (name_policy L ns) Unknown)
    (m : Memory T) (entries : list (Enum T)) (n : string) :
  bound_to h m entries ->
  exists r, fromString h n m = (Ok r, m) /\
    (first_with (fun e => same_name L ns n (name e)) entries r \/
     (none_with (fun e => same_name L ns n (name e)) entries /\
      r = default_unknown_enum)).
Proof.
  intros (Hm & _ & _).
  rewrite (fromString_run h m entries n Hm).
  change (handle_name Unknown N n entries) with (Ok (default_unknown_enum (T:=T))).
  destruct ns.
  - change (search_by_name (name_policy L CaseSensitiveSearch) N n entries)
      with (Ok (policy.CaseSensitiveStringSearchPolicy.scan n entries)).
    rewrite or_unknown_found.
    exists (policy.CaseSensitiveStringSearchPolicy.scan n entries).
    split; [done|]. simpl.
    destruct (sensitive_scan_cases n entries) as [(i & Hi & Hv & Hfirst)|[Hno Hd]].
    + left. exists i. split; [done|]. split; [done|].
      intros k x Hk Hx Heq. by apply (Hfirst k x).
    + right. split; [|done]. intros x Hx Heq. by apply (Hno x).
  - change (search_by_name (name_policy L CaseInsensitiveSearch) N n entries)
      with (policy.CaseInsensitiveStringSearchPolicy.scan L n entries).
    destruct (insensitive_scan_cases L n entries) as [(e & -> & Hfirst)|[Hno ->]].
    + rewrite or_unknown_found. exists e. split; [done|]. by left.
    + rewrite or_unknown_found. exists default_unknown_enum. split; [done|].
      by right.
Qed.

(** Property X9.  Under every provided strategy and the provided unknown
    policy, in every locale and whatever the order of the array, an
    entry that [fromValue] or [fromString] returns is the sentinel or an
    entry of the array that matches the query: same value, or same name
    for the bound name strategy (for the case-insensitive one, a name
    that [std::tolower] of the current locale maps like the query).  A
    stored entry that does not match is never returned. *)
Theorem resolution_never_returns_wrong_entry (L : Locale)
    (vs : value_strategy) (ns : name_strategy)
    (h : EnumHolder N (value_policy vs) (name_policy L ns) Unknown)
    (m : Memory T) (entries : list (Enum T)) :
  bound_to h m entries ->
  (forall (v : T) (e : Enum T),
     fst (fromValue h v m) = Ok e ->
     e = default_unknown_enum \/ (e ∈ entries /\ value e = v)) /\
  (forall (n : string) (e : Enum T),
     fst (fromString h n m) = Ok e ->
     e = default_unknown_enum \/ (e ∈ entries /\ same_name L ns n (name e))).
Proof.
  intros (Hm & _ & _). split.
  - intros v e.
    rewrite (fromValue_run h m entries v Hm).
    change (handle_value Unknown N v entries) with (Ok (default_unknown_enum (T:=T))).
    destruct (search_by_value (value_policy vs) N v entries) as [r|f] eqn:Hs; [|done].
    rewrite or_unknown_found. intros [= <-].
    destruct vs.
    + change (search_by_value (value_policy LinearSearch) N v entries)
        with (Ok (policy.LinearSearchPolicy.scan v entries)) in Hs.
      injection Hs as <-.
      destruct (linear_scan_cases v entries) as [(i & Hi & Hv & _)|[_ ->]]; [|by left].
      right. split; [by eapply list_elem_of_lookup_2|done].
    + by apply loop_sound in Hs.
  - intros n e.
    rewrite (fromString_run h m entries n Hm).
    change (handle_name Unknown N n entries) with (Ok (default_unknown_enum (T:=T))).
    destruct ns.
    + change (search_by_name (name_policy L CaseSensitiveSearch) N n entries)
        with (Ok (policy.CaseSensitiveStringSearchPolicy.scan n entries)).
      rewrite or_unknown_found. intros [= <-].
      destruct (sensitive_scan_cases n entries) as [(i & Hi & Hv & _)|[_ ->]];
        [|by left].
      right. split; [by eapply list_elem_of_lookup_2|done].
    + change (search_by_name (name_policy L CaseInsensitiveSearch) N n entries)
        with (policy.CaseInsensitiveStringSearchPolicy.scan L n entries).
      destruct (insensitive_scan_cases L n entries)
        as [(r & -> & i & Hi & Hv & _)|[_ ->]];
        rewrite or_unknown_found; intros [= <-]; [|by left].
      right. split; [by eapply list_elem_of_lookup_2|done].
Qed.
End HolderProperties.

Section ProtocolProperties.
Context {T : Type} `{LawfulValue T}.
Context {N : nat}.

(** Property X10.  For any value-search, name-search and unknown policy:
    when the bound search returns an entry other than the
    default-constructed one, [fromValue] and [fromString] return that
    entry and the unknown policy has no say. *)
Theorem real_match_bypasses_unknown_policy
    {ESP : EnumSearchPolicy T} {SSP : StringSearchPolicy T} {UP : UnknownHandler T}
    (h : EnumHolder N ESP SSP UP) (m : Memory T) (entries : list (Enum T)) :
  bound_to h m entries ->
  (forall (v : T) (r : Enum T),
     search_by_value ESP N v entries = Ok r -> r <> default_unknown_enum ->
     fromValue h v m = (Ok r, m)) /\
  (forall (n : string) (r : Enum T),
     search_by_name SSP N n entries = Ok r -> r <> default_unknown_enum ->
     fromString h n m = (Ok r, m)).
Proof.
  intros (Hm & _ & _).
  assert (forall r : Enum T, r <> default_unknown_enum ->
            Enum_eq r default_unknown_enum = false) as Hne.
  { intros r Hr. destruct (Enum_eq r default_unknown_enum) eqn:E; [|done].
    by apply Enum_eq_spec in E. }
  split.
  - intros v r Hs Hr. rewrite (fromValue_run h m entries v Hm), Hs.
    unfold or_unknown. by rewrite Hne.
  - intros n r Hs Hr. rewrite (fromString_run h m entries n Hm), Hs.
    unfold or_unknown. by rewrite Hne.
Qed.

(** Property X11.  Under every provided value strategy (the array sorted
    ascending when the sorted one is bound, duplicates allowed) and the
    provided unknown policy: when some entry stores the queried value,
    [fromValue] returns an entry whose conversion to [T] is the queried
    value. *)
Theorem fromValue_returns_queried_value {SSP : StringSearchPolicy T}
    (vs : value_strategy) (h : EnumHolder N (value_policy vs) SSP Unknown)
    (m : Memory T) (entries : list (Enum T)) (v : T) :
  bound_to h m entries ->
  value_precondition vs entries ->
  (exists x, x ∈ entries /\ value x = v) ->
  exists r, fromValue h v m = (Ok r, m) /\ to_value r = v.
Proof.
  intros (Hm & Hlen & Hmax) Hpre (x & Hx & Hv).
  rewrite (fromValue_run h m entries v Hm).
  change (handle_value Unknown N v entries) with (Ok (default_unknown_enum (T:=T))).
  destruct vs.
  - change (search_by_value (value_policy LinearSearch) N v entries)
      with (Ok (policy.LinearSearchPolicy.scan v entries)).
    rewrite or_unknown_found. eexists. split; [done|].
    destruct (linear_scan_cases v entries) as [(i & Hi & Hiv & _)|[Hno _]]; [done|].
    by destruct (Hno x Hx).
  - change (search_by_value (value_policy SortedSearch) N v entries)
      with (policy.SortedSearchPolicy.search N v entries).
    apply list_elem_of_lookup in Hx as [k Hk].
    pose proof (lookup_lt_Some _ _ _ Hk) as Hlt.
    destruct (loop_finds_value v entries Hpre ltac:(lia) (N + 2)
                0 (Z.of_nat N - 1)) as (e & He & Hin & Hev); [lia|lia| |lia|].
    { exists k, x. repeat split; [done|done|lia|lia]. }
    unfold policy.SortedSearchPolicy.search, size_sub.
    rewrite wrap_small by lia. rewrite He, or_unknown_found.
    by exists e.
Qed.

(** Property X12.  [Enum::operator==] holds exactly when both the values
    and the names are equal; it is reflexive, symmetric and transitive,
    and equal entries convert to the same [T]. *)
Theorem Enum_eq_is_equality_of_both_fields :
  (forall a b : Enum T,
     Enum_eq a b = true <-> value a = value b /\ name a = name b) /\
  (forall a : Enum T, Enum_eq a a = true) /\
  (forall a b : Enum T, Enum_eq a b = Enum_eq b a) /\
  (forall a b c : Enum T,
     Enum_eq a b = true -> Enum_eq b c = true -> Enum_eq a c = true) /\
  (forall a b : Enum T, Enum_eq a b = true -> to_value a = to_value b).
Proof.
  split; [|split; [|split; [|split]]].
  - intros [va na] [vb nb]. rewrite Enum_eq_spec. simpl. split.
    + by intros [= -> ->].
    + by intros [-> ->].
  - intros a. by apply Enum_eq_spec.
  - intros a b. destruct (Enum_eq a b) eqn:Eab.
    + apply Enum_eq_spec in Eab as ->. symmetry. by apply Enum_eq_spec.
    + destruct (Enum_eq b a) eqn:Eba; [|done].
      apply Enum_eq_spec in Eba as ->.
      assert (Enum_eq a a = true) by (by apply Enum_eq_spec). congruence.
  - intros a b c Hab Hbc. apply Enum_eq_spec in Hab, Hbc. subst.
    by apply Enum_eq_spec.
  - intros a b Hab. apply Enum_eq_spec in Hab. by subst.
Qed.
End ProtocolProperties.

(** * Further properties of the name comparison *)

Section NameComparison.
Import policy.CaseInsensitiveStringSearchPolicy.

(** Property X13.  In every locale [caseInsensitiveEqual] is an
    equivalence on characters; the name comparison built on it always
    answers, without reading past the end of either name, whatever the
    two lengths; and it is an equivalence on names: it does not matter
    which of two names is the query and which is stored. *)
Theorem case_insensitive_comparison_is_equivalence (L : Locale) :
  (forall a : ascii, caseInsensitiveEqual L a a = true) /\
  (forall a b : ascii, caseInsensitiveEqual L a b = caseInsensitiveEqual L b a) /\
  (forall a b c : ascii,
     caseInsensitiveEqual L a b = true -> caseInsensitiveEqual L b c = true ->
     caseInsensitiveEqual L a c = true) /\
  (forall n1 n2 : string, exists b : bool, names_match L n1 n2 = Ok b) /\
  (forall n : string, names_match L n n = Ok true) /\
  (forall n1 n2 : string, names_match L n1 n2 = names_match L n2 n1) /\
  (forall n1 n2 n3 : string,
     names_match L n1 n2 = Ok true -> names_match L n2 n3 = Ok true ->
     names_match L n1 n3 = Ok true).
Proof.
  split; [|split; [|split; [|split; [|split; [|split]]]]].
  - intros a. apply Z.eqb_refl.
  - intros a b. apply Z.eqb_sym.
  - intros a b c. unfold caseInsensitiveEqual.
    intros Hab Hbc. apply Z.eqb_eq in Hab, Hbc. apply Z.eqb_eq. congruence.
  - intros n1 n2. rewrite names_match_folded. by eexists.
  - intros n. by apply names_match_true, folded_name_eq_iff.
  - intros n1 n2. rewrite !names_match_folded. f_equal.
    apply bool_decide_ext. split; congruence.
  - intros n1 n2 n3. rewrite !names_match_true, <- !folded_name_eq_iff. congruence.
Qed.

(** Property X14.  The case-insensitive strategy finds whatever the
    case-sensitive one finds, in every locale: when the entry at index
    [i] has exactly the queried name, the case-insensitive search returns
    an entry at an index [j <= i] whose name has the length of the query
    and characters that [std::tolower] of the current locale maps like
    those of the query. *)
Theorem exact_name_is_found_case_insensitively {T : Type} `{ValueType T}
    (L : Locale) (N : nat) (entries : list (Enum T)) (n : string)
    (i : nat) (e : Enum T) :
  entries !! i = Some e ->
  name e = n ->
  exists (j : nat) (e' : Enum T),
    (j <= i)%nat /\ entries !! j = Some e' /\ locale_equal L n (name e') /\
    search L N n entries = Ok e'.
Proof.
  revert i. induction entries as [|a rest IH]; intros i Hi Hn.
  - by rewrite lookup_nil in Hi.
  - unfold search. rewrite insensitive_scan_unfold.
    destruct (decide (folded_name L (name a) = folded_name L n)) as [Ea|Ea].
    + rewrite bool_decide_eq_true_2 by done.
      exists 0%nat, a. split; [lia|]. split; [done|]. split; [|done].
      by apply folded_name_eq_iff.
    + rewrite bool_decide_eq_false_2 by done.
      destruct i as [|i].
      * simpl in Hi. injection Hi as ->. by rewrite Hn in Ea.
      * simpl in Hi. destruct (IH i Hi Hn) as (j & e' & Hj & Hje & Hf & Hs).
        exists (S j), e'. split; [lia|]. split; [done|]. split; [done|].
        exact Hs.
Qed.
End NameComparison.

(** * The number of probes of the binary search *)

Section SortedSearchCost.
Context {T : Type} `{LawfulValue T}.

Import policy.SortedSearchPolicy.

(** More fuel does not change an outcome that did not need it. *)
Lemma loop_fuel_mono (v : T) (entries : list (Enum T)) (fuel : nat) :
  forall (fuel' : nat) (left right : Z) (o : Outcome (Enum T)),
    (fuel <= fuel')%nat ->
    loop fuel v entries left right = o -> o <> Fault OutOfFuel ->
    loop fuel' v entries left right = o.
Proof.
  induction fuel as [|fuel IH]; intros fuel' left right o Hle Ho Hne.
  - simpl in Ho. congruence.
  - destruct fuel' as [|fuel']; [lia|].
    rewrite loop_step in Ho. rewrite loop_step.
    destruct (left <=? right); [|done].
    destruct (at_index entries (midpoint left right)) as [e|f]; [|done].
    destruct (veq (value e) v); [done|].
    destruct (vlt (value e) v); apply IH; (lia || done).
Qed.

(** Each probe halves the interval. *)
Lemma loop_halves (v : T) (entries : list (Enum T)) :
  Z.of_nat (length entries) <= 2 ^ 63 - 1 ->
  forall (fuel : nat) (left right : Z),
    0 <= left <= right + 1 -> 0 <= right < Z.of_nat (length entries) ->
    right - left + 1 < 2 ^ (Z.of_nat fuel - 1) ->
    loop fuel v entries left right <> Fault OutOfFuel.
Proof.
  intros Hmax fuel.
  induction fuel as [|fuel IH]; intros left right Hl Hr Hfuel.
  - simpl in Hfuel. lia.
  - rewrite loop_step.
    destruct (Z.leb_spec left right) as [Hle|Hgt]; [|done].
    assert (1 <= Z.of_nat fuel) as Hpos.
    { destruct fuel; [|lia]. simpl in Hfuel. lia. }
    assert (2 ^ (Z.of_nat (S fuel) - 1) = 2 * 2 ^ (Z.of_nat fuel - 1)) as Hpow.
    { replace (Z.of_nat (S fuel) - 1) with (Z.succ (Z.of_nat fuel - 1)) by lia.
      apply Z.pow_succ_r. lia. }
    rewrite Hpow in Hfuel.
    destruct (midpoint_in_range left right) as [Hmid Hbounds];
      [lia|unfold SIZE_MAX; lia|].
    destruct (at_index_in_range entries (midpoint left right)) as (e' & He' & ->); [lia|].
    destruct (veq (value e') v); [done|].
    destruct (vlt (value e') v).
    + unfold size_add. rewrite wrap_small by (unfold SIZE_MAX; lia).
      apply IH; [lia|lia|]. rewrite Hmid.
      pose proof (Z.div_mod (right - left) 2 ltac:(lia)).
      pose proof (Z.mod_pos_bound (right - left) 2 ltac:(lia)). lia.
    + destruct (Z.eq_dec (midpoint left right) 0) as [Hz|Hnz].
      * assert (left = 0) as -> by lia.
        rewrite Hz. change (size_sub 0 1) with SIZE_MAX.
        destruct fuel as [|fuel]; [lia|].
        rewrite loop_step. change (0 <=? SIZE_MAX) with true. cbv iota.
        rewrite midpoint_after_underflow.
        by rewrite at_index_past_end.
      * unfold size_sub. rewrite wrap_small by (unfold SIZE_MAX; lia).
        apply IH; [lia|lia|]. rewrite Hmid.
        pose proof (Z.div_mod (right - left) 2 ltac:(lia)).
        pose proof (Z.mod_pos_bound (right - left) 2 ltac:(lia)). lia.
Qed.

(** Property X15.  On any array of [N] entries, with [1 <= N < 2^63], the
    binary search tests its loop condition at most [log2 N + 2] times:
    the loop cut off after that many tests already gives the outcome of
    the search. *)
Theorem sorted_search_is_logarithmic (N : nat) (v : T) (entries : list (Enum T)) :
  length entries = N ->
  (1 <= N)%nat ->
  Z.of_nat N <= 2 ^ 63 - 1 ->
  loop (Z.to_nat (Z.log2 (Z.of_nat N)) + 2) v entries 0 (Z.of_nat N - 1)
    = search N v entries.
Proof.
  intros Hlen Hpos Hmax. symmetry. unfold search, size_sub.
  rewrite wrap_small by (unfold SIZE_MAX; lia).
  pose proof (Z.log2_nonneg (Z.of_nat N)) as Hlog.
  pose proof (Z.log2_le_lin (Z.of_nat N) ltac:(lia)) as Hlin.
  apply (loop_fuel_mono v entries (Z.to_nat (Z.log2 (Z.of_nat N)) + 2)); [lia|done|].
  apply loop_halves; [lia|lia|lia|].
  replace (Z.of_nat (Z.to_nat (Z.log2 (Z.of_nat N)) + 2) - 1)
    with (Z.succ (Z.log2 (Z.of_nat N))) by lia.
  pose proof (Z.log2_spec (Z.of_nat N) ltac:(lia)). lia.
Qed.
End SortedSearchCost.

(** * Value to name and back *)

#[export] Instance uint64_LawfulValue : LawfulValue BinNums.N.
Proof.
  split; simpl; intros.
  - apply N.eqb_eq.
  - apply N.ltb_irrefl.
  - apply N.ltb_lt. apply N.ltb_lt in H, H0. lia.
  - apply N.ltb_ge in H, H0. lia.
Qed.

Section ThereAndBack.
Context {T : Type} `{LawfulValue T}.
Context {N : nat}.

(** Property X16.  With the binding that [DefaultEnumHolder] fixes
    (linear value search, case-sensitive name search, the provided
    unknown policy): if the names of the array are pairwise distinct,
    going from a stored value to its name and back gives the value; if
    the values are pairwise distinct, going from a stored name to its
    value and back gives the name.  Neither direction needs the other
    kind of key to be distinct. *)
Theorem value_name_value_and_name_value_name
    (h : EnumHolder N Linear CaseSensitive Unknown) (m : Memory T)
    (entries : list (Enum T)) (e : Enum T) :
  bound_to h m entries ->
  e ∈ entries ->
  (NoDup (name <$> entries) ->
   exists r1 r2, fromValue h (value e) m = (Ok r1, m) /\
                 fromString h (name r1) m = (Ok r2, m) /\
                 to_value r2 = value e) /\
  (NoDup (value <$> entries) ->
   exists r1 r2, fromString h (name e) m = (Ok r1, m) /\
                 fromValue h (to_value r1) m = (Ok r2, m) /\
                 name r2 = name e).
Proof.
  intros (Hm & _ & _) He.
  assert (forall n, fromString h n m
            = (Ok (policy.CaseSensitiveStringSearchPolicy.scan n entries), m)) as Hname.
  { intros n. rewrite (fromString_run h m entries n Hm).
    change (search_by_name CaseSensitive N n entries)
      with (Ok (policy.CaseSensitiveStringSearchPolicy.scan n entries)).
    change (handle_name Unknown N n entries) with (Ok (default_unknown_enum (T:=T))).
    by rewrite or_unknown_found. }
  split; intros Hnd.
  - destruct (linear_scan_cases (value e) entries) as [(i & Hi & Hv & _)|[Hno _]];
      [|by destruct (Hno e He)].
    set (r1 := policy.LinearSearchPolicy.scan (value e) entries) in *.
    exists r1, r1. split; [by apply fromValue_linear_total|].
    split; [|done]. rewrite Hname. f_equal. f_equal.
    apply (sensitive_scan_first _ _ i); [done|done|].
    intros k x Hk Hx Heq.
    assert (k = i) by (by eapply (NoDup_keys_first name)). lia.
  - destruct (sensitive_scan_cases (name e) entries) as [(i & Hi & Hv & _)|[Hno _]];
      [|by destruct (Hno e He)].
    set (r1 := policy.CaseSensitiveStringSearchPolicy.scan (name e) entries) in *.
    exists r1, r1. split; [by apply Hname|].
    split; [|done]. rewrite (fromValue_linear_total h m entries _ Hm). f_equal. f_equal.
    apply (linear_scan_first _ _ i); [done|done|].
    intros k x Hk Hx Heq.
    assert (k = i) by (by eapply (NoDup_keys_first value)). lia.
Qed.
End ThereAndBack.

(** * The further properties at concrete tables *)

Lemma fromValue_linear_first_or_sentinel_witness :
  exists r, fromValue DuplicateHolder 2 duplicateMemory = (Ok r, duplicateMemory) /\
    (first_with (fun e => value e = 2) duplicateEntries r \/
     (none_with (fun e => value e = 2) duplicateEntries /\ r = default_unknown_enum)).
Proof.
  apply (fromValue_linear_first_or_sentinel DuplicateHolder duplicateMemory
           duplicateEntries 2).
  live_array.
Defined.

Lemma fromString_first_or_sentinel_witness :
  exists r, fromString (AccentHolder Latin1_locale) smallEacute accentMemory
              = (Ok r, accentMemory) /\
    (first_with (fun e => locale_equal Latin1_locale smallEacute (name e))
       accentEntries r \/
     (none_with (fun e => locale_equal Latin1_locale smallEacute (name e))
        accentEntries /\
      r = default_unknown_enum)).
Proof.
  apply (fromString_first_or_sentinel (ESP:=Linear) Latin1_locale
           CaseInsensitiveSearch (AccentHolder Latin1_locale) accentMemory
           accentEntries smallEacute).
  live_array.
Defined.

Lemma resolution_never_returns_wrong_entry_witness :
  (forall (v : Z) (e : Enum Z),
     fst (fromValue SortedInsensitiveHolder v sortedMemory) = Ok e ->
     e = default_unknown_enum \/ (e ∈ sortedColors /\ value e = v)) /\
  (forall (n : string) (e : Enum Z),
     fst (fromString SortedInsensitiveHolder n sortedMemory) = Ok e ->
     e = default_unknown_enum \/
     (e ∈ sortedColors /\ locale_equal C_locale n (name e))).
Proof.
  apply (resolution_never_returns_wrong_entry C_locale SortedSearch
           CaseInsensitiveSearch SortedInsensitiveHolder sortedMemory sortedColors).
  live_array.
Defined.

Lemma real_match_bypasses_unknown_policy_witness :
  fromValue MarkerHolder 2 defaultEntryMemory
    = (Ok (mkEnum 2 "Green"%string), defaultEntryMemory) /\
  fromString MarkerHolder "Red"%string defaultEntryMemory
    = (Ok (mkEnum 1 "Red"%string), defaultEntryMemory).
Proof.
  destruct (real_match_bypasses_unknown_policy MarkerHolder defaultEntryMemory
              withDefaultEntry) as [Hvalue Hname]; [live_array|].
  split.
  - apply (Hvalue 2 (mkEnum 2 "Green"%string)); [reflexivity|discriminate].
  - apply (Hname "Red"%string (mkEnum 1 "Red"%string)); [reflexivity|discriminate].
Defined.

Lemma fromValue_returns_queried_value_witness :
  exists r, fromValue SortedTwinsHolder 2 sortedTwinsMemory = (Ok r, sortedTwinsMemory) /\
            to_value r = 2.
Proof.
  apply (fromValue_returns_queried_value SortedSearch SortedTwinsHolder
           sortedTwinsMemory sortedTwins 2).
  - live_array.
  - apply ascendingb_sound. reflexivity.
  - exists (mkEnum 2 "Deux"%string). split; [|reflexivity]. right. right. left.
Defined.

Lemma Enum_eq_is_equality_of_both_fields_witness :
  Enum_eq (mkEnum 1 "Enum1"%string) (mkEnum 1 "Enum1"%string) = true /\
  to_value (mkEnum 42 "TestInt"%string) = to_value (mkEnum 42 "TestInt"%string).
Proof.
  pose proof (Enum_eq_is_equality_of_both_fields (T:=Z))
    as (Hboth & Hrefl & Hsym & Htrans & Hconv).
  split.
  - apply Hboth. split; reflexivity.
  - apply Hconv. apply Hrefl.
Defined.

Lemma case_insensitive_comparison_is_equivalence_witness :
  (exists b : bool,
     policy.CaseInsensitiveStringSearchPolicy.names_match Latin1_locale
       "Green"%string "Red"%string = Ok b) /\
  policy.CaseInsensitiveStringSearchPolicy.names_match Latin1_locale
      capitalEacute smallEacute
    = policy.CaseInsensitiveStringSearchPolicy.names_match Latin1_locale
        smallEacute capitalEacute /\
  policy.CaseInsensitiveStringSearchPolicy.names_match C_locale
    "GREEN"%string "green"%string = Ok true.
Proof.
  split; [|split].
  - apply (case_insensitive_comparison_is_equivalence Latin1_locale).
  - apply (case_insensitive_comparison_is_equivalence Latin1_locale).
  - destruct (case_insensitive_comparison_is_equivalence C_locale)
      as (_ & _ & _ & _ & _ & _ & Htrans).
    apply (Htrans "GREEN"%string "Green"%string "green"%string); reflexivity.
Defined.

Lemma exact_name_is_found_case_insensitively_witness :
  exists (j : nat) (e' : Enum Z),
    (j <= 2)%nat /\ colorEntries !! j = Some e' /\
    locale_equal Latin1_locale "Blue"%string (name e') /\
    policy.CaseInsensitiveStringSearchPolicy.search Latin1_locale 4
      "Blue"%string colorEntries = Ok e'.
Proof.
  apply (exact_name_is_found_case_insensitively Latin1_locale 4 colorEntries
           "Blue"%string 2 (mkEnum 3 "Blue"%string)); reflexivity.
Defined.

Lemma sorted_search_is_logarithmic_witness :
  policy.SortedSearchPolicy.loop (Z.to_nat (Z.log2 (Z.of_nat 4)) + 2) 3 sortedTwins
      0 (Z.of_nat 4 - 1)
    = policy.SortedSearchPolicy.search 4 3 sortedTwins.
Proof.
  apply (sorted_search_is_logarithmic 4 3 sortedTwins).
  - reflexivity.
  - lia.
  - vm_compute. discriminate.
Defined.

Lemma value_name_value_and_name_value_name_witness :
  (exists r1 r2, fromValue LevelHolder 10%N levelMemory = (Ok r1, levelMemory) /\
                 fromString LevelHolder (name r1) levelMemory = (Ok r2, levelMemory) /\
                 to_value r2 = 10%N) /\
  (exists r1 r2, fromString SwitchHolder "On"%string levelMemory = (Ok r1, levelMemory) /\
                 fromValue SwitchHolder (to_value r1) levelMemory = (Ok r2, levelMemory) /\
                 name r2 = "On"%string).
Proof.
  split.
  - apply (value_name_value_and_name_value_name LevelHolder levelMemory levelEntries
             (mkEnum 10%N "Trace"%string)).
    + live_array.
    + right. right. left.
    + apply (bool_decide_unpack _). vm_compute. exact I.
  - apply (value_name_value_and_name_value_name SwitchHolder levelMemory switchEntries
             (mkEnum 3%N "On"%string)).
    + live_array.
    + right. right. left.
    + apply (bool_decide_unpack _). vm_compute. exact I.
Defined.
